(** * distcron: the distributed execution guard

    A shallow embedding of [distcron.go] (package [distcron]): the schedule
    builder, the guarded job wrapper returned by [lock], and the start
    routine [Run].  Redis, the redsync mutex and the cron timer engine are
    external collaborators; they are modelled by the state they keep and by
    an environment that decides which network calls get through. *)

From stdpp Require Import gmap strings list.

Open Scope string_scope.
Open Scope list_scope.

(** ** Values kept in Redis *)

(** A key holds either an integer written by [SET name 1] or the random
    token that redsync stores under the lock key. *)
Inductive Val :=
| VInt (n : Z)
| VToken (t : nat).

#[global] Instance Val_eq_dec : EqDecision Val.
Proof. solve_decision. Defined.

Abbreviation Store := (gmap string Val).

(** ** Errors *)

Inductive Err :=
| ErrConn      (* redigo: the command did not complete *)
| ErrFailed    (* redsync.ErrFailed: the lock was not acquired *)
| ErrUnlock    (* errors.New("unlock failed") *)
| ErrSpec.     (* cron: the time-spec does not parse *)

(** ** Redis commands issued through [pool.Get().Do] *)

Inductive Command :=
| PING
| GET (key : string)
| SET (key : string) (v : Val)
| DEL (key : string).

Inductive Reply :=
| RNil
| RBulk (v : Val)
| RStatus (s : string)
| RInteger (n : Z).

(** ** The redsync mutex object

    [mname] is the key the lock lives under, [mvalue] the token written by
    the last successful [Lock] of this object ([None] for the empty string
    a new mutex starts with). *)
Record Mutex := { mname : string; mvalue : option nat }.

(** ** Observable events of one process *)

Inductive Event :=
| EvNewMutex (m : nat) (key : string)
| EvLock (m : nat) (err : option Err)
| EvUnlock (m : nat) (ok : bool)
| EvDo (c : Command) (r : Reply) (err : option Err)
| EvCall (s : Store)
| EvError (err : Err) (msg : string)
| EvInfo (msg : string).

(** ** The environment shared by all processes

    [store] is the Redis keyspace, [tokens] the supply of lock tokens
    (redsync draws 16 random bytes; distinct draws are taken to be
    distinct), [calls] counts the network calls made so far and [net] says
    which of them get through; calls past the end of [net] get through. *)
Record Env := {
  store : Store;
  tokens : nat;
  calls : nat;
  net : list bool
}.

(** ** The state of one process: its mutex objects, the environment, and
    the events it has produced, oldest first. *)
Record State := {
  heap : list Mutex;
  env : Env;
  trace : list Event
}.

Definition answers (n : nat) (l : list bool) : bool := nth n l true.

Definition net_ok (e : Env) : bool := answers (calls e) (net e).

Definition called (s : Store) (e : Env) : Env :=
  {| store := s; tokens := tokens e; calls := S (calls e); net := net e |}.

Definition drawn (s : Store) (e : Env) : Env :=
  {| store := s; tokens := S (tokens e); calls := S (calls e); net := net e |}.

Definition emit (ev : Event) (h : list Mutex) (e : Env) (st : State) : State :=
  {| heap := h; env := e; trace := trace st ++ [ev] |}.

(** ** Redis command semantics *)

(** What the command answers, and what it leaves in the store. *)
Definition reply_of (c : Command) (s : Store) : Reply :=
  match c with
  | PING => RStatus "PONG"
  | GET k => match s !! k with Some v => RBulk v | None => RNil end
  | SET _ _ => RStatus "OK"
  | DEL k => RInteger (match s !! k with Some _ => 1 | None => 0 end)
  end.

Definition effect_of (c : Command) (s : Store) : Store :=
  match c with
  | PING | GET _ => s
  | SET k v => <[k := v]> s
  | DEL k => delete k s
  end.

(** [pool.Get().Do(c)]: when the call does not get through the reply is
    nil, the error is set and the store is untouched. *)
Definition redis_do (c : Command) (st : State) : Reply * option Err * State :=
  let e := env st in
  if net_ok e then
    (reply_of c (store e), None,
     emit (EvDo c (reply_of c (store e)) None) (heap st)
          (called (effect_of c (store e)) e) st)
  else
    (RNil, Some ErrConn,
     emit (EvDo c RNil (Some ErrConn)) (heap st) (called (store e) e) st).

(** ** redsync mutex semantics *)

(** [Lock] draws a token and issues [SET key token NX PX ttl]; it succeeds
    when the call gets through and the key is free.  Every failure
    (contention outlasting the retries, or the store unreachable) is
    reported as [ErrFailed].  The clock is not part of the model: one
    [EvLock] stands for the whole call, retries included, and its outcome
    is read off the store as it is when the call is made; a key whose
    expiry falls within the retries of a call is not represented. *)
Definition lock_succeeds (key : string) (e : Env) : bool :=
  net_ok e && bool_decide (store e !! key = None).

Definition mutex_lock (m : nat) (st : State) : option Err * State :=
  let e := env st in
  match heap st !! m with
  | None => (Some ErrFailed, emit (EvLock m (Some ErrFailed)) (heap st) e st)
  | Some mx =>
      if lock_succeeds (mname mx) e then
        (None,
         emit (EvLock m None)
              (<[m := {| mname := mname mx; mvalue := Some (tokens e) |}]> (heap st))
              (drawn (<[mname mx := VToken (tokens e)]> (store e)) e) st)
      else
        (Some ErrFailed,
         emit (EvLock m (Some ErrFailed)) (heap st) (drawn (store e) e) st)
  end.

(** [Unlock] deletes the key only if it still holds this object's token,
    and reports whether it did. *)
Definition unlock_succeeds (mx : Mutex) (e : Env) : bool :=
  net_ok e &&
  match mvalue mx with
  | Some t => bool_decide (store e !! mname mx = Some (VToken t))
  | None => false
  end.

Definition mutex_unlock (m : nat) (st : State) : bool * State :=
  let e := env st in
  match heap st !! m with
  | None => (false, emit (EvUnlock m false) (heap st) e st)
  | Some mx =>
      if unlock_succeeds mx e then
        (true, emit (EvUnlock m true) (heap st) (called (delete (mname mx) (store e)) e) st)
      else
        (false, emit (EvUnlock m false) (heap st) (called (store e) e) st)
  end.

(** The mutex TTL running out: the lock key disappears from the store. *)
Definition expire (key : string) (e : Env) : Env :=
  {| store := delete key (store e); tokens := tokens e; calls := calls e; net := net e |}.

(** ** Job bodies and the logger *)

(** A job body is a Go [func()]; its effect on the shared store is all the
    guard can observe of it.  A body that panics or never returns takes
    the closure with it and is not modelled. *)
Definition call_func (f : Store -> Store) (st : State) : State :=
  let e := env st in
  emit (EvCall (store e)) (heap st)
       {| store := f (store e); tokens := tokens e; calls := calls e; net := net e |} st.

Definition log_error (err : Err) (msg : string) (st : State) : State :=
  emit (EvError err msg) (heap st) (env st) st.

Definition log_info (msg : string) (st : State) : State :=
  emit (EvInfo msg) (heap st) (env st) st.

(** ** Programs: the control flow of a closure, one constructor per call
    that leaves the closure *)

Inductive Prog :=
| Return
| Lock (m : nat) (k : option Err -> Prog)
| Unlock (m : nat) (k : bool -> Prog)
| Do (c : Command) (k : Reply -> option Err -> Prog)
| Call (f : Store -> Store) (k : Prog)
| LogError (err : Err) (msg : string) (k : Prog)
| LogInfo (msg : string) (k : Prog).

(** One call of a program against the state. *)
Definition step (p : Prog) (st : State) : Prog * State :=
  match p with
  | Return => (Return, st)
  | Lock m k => let (r, st') := mutex_lock m st in (k r, st')
  | Unlock m k => let (r, st') := mutex_unlock m st in (k r, st')
  | Do c k => let '(r, err, st') := redis_do c st in (k r err, st')
  | Call f k => (k, call_func f st)
  | LogError err msg k => (k, log_error err msg st)
  | LogInfo msg k => (k, log_info msg st)
  end.

(** A program run to its return. *)
Fixpoint exec (p : Prog) (st : State) : State :=
  match p with
  | Return => st
  | Lock m k => let (r, st') := mutex_lock m st in exec (k r) st'
  | Unlock m k => let (r, st') := mutex_unlock m st in exec (k r) st'
  | Do c k => let '(r, err, st') := redis_do c st in exec (k r err) st'
  | Call f k => exec k (call_func f st)
  | LogError err msg k => exec k (log_error err msg st)
  | LogInfo msg k => exec k (log_info msg st)
  end.

(** ** [lock]: the guarded wrapper (distcron.go, lines 152-213) *)

Definition mutexName (name : string) : string := "GLOBAL-" +:+ name.

(** The closure returned by [lock]; [m] is the mutex object it captured.
    A Go [return] is [Return]; a statement that only logs on failure and
    falls through is a prefix of the code that follows it. *)
Definition lock_closure (m : nat) (name : string) (f : Store -> Store) : Prog :=
  Lock m (fun err =>
  match err with
  | Some err => LogError err "could not obtain lock" Return
  | None =>
  Do (GET name) (fun key err =>
  match err with
  | Some err => LogError err "could not get unique key, not running" Return
  | None =>
  match key with
  | RBulk _ | RStatus _ | RInteger _ =>
      LogInfo "wasn't first to take the job, aborting" Return
  | RNil =>
  Do (SET name (VInt 1)) (fun _ err =>
  match err with
  | Some err => LogError err "could not set job key, not running" Return
  | None =>
  Unlock m (fun ok =>
  (if ok then id else LogError ErrUnlock "unlock did not return a true value") (
  LogInfo "staring job" (
  Call f (
  LogInfo "job finished, removing job lock" (
  Lock m (fun err =>
  match err with Some err => LogError err "lock not obtained" | None => id end (
  Do (DEL name) (fun _ err =>
  match err with Some err => LogError err "could not remove job lock" | None => id end (
  Unlock m (fun ok =>
  (if ok then id else LogError ErrUnlock "unlock did not return a true value")
  Return))))))))))
  end) end end) end).

(** [lock] builds one mutex object for the job and returns the closure
    that captures it. *)
Definition lock (name : string) (f : Store -> Store) (st : State) : Prog * State :=
  let m := length (heap st) in
  (lock_closure m name f,
   emit (EvNewMutex m (mutexName name))
        (heap st ++ [{| mname := mutexName name; mvalue := None |}]) (env st) st).

(** One activation of the guarded wrapper, observed from a fresh recorder:
    the closure runs against the process's mutex objects [h] and the
    environment [e]. *)
Definition invoke (m : nat) (name : string) (f : Store -> Store)
    (h : list Mutex) (e : Env) : State :=
  exec (lock_closure m name f) {| heap := h; env := e; trace := [] |}.

(** Events that report a failed lock acquisition or a failed Redis
    command, and events that only log. *)
Definition failed (ev : Event) : Prop :=
  match ev with
  | EvLock _ (Some _) | EvDo _ _ (Some _) => True
  | _ => False
  end.

Definition is_log (ev : Event) : Prop :=
  match ev with
  | EvError _ _ | EvInfo _ => True
  | _ => False
  end.

(** ** Readings of the specification *)

(** All nine steps of an activation succeed: the body was called, no lock
    acquisition and no Redis command failed, and no Unlock returned
    false. *)
Definition all_steps_succeed (t : list Event) : Prop :=
  (exists s, EvCall s ∈ t) /\
  (forall m err, EvLock m (Some err) ∉ t) /\
  (forall c r err, EvDo c r (Some err) ∉ t) /\
  (forall m, EvUnlock m false ∉ t).

(** The reading of step 7 under which a failed re-acquisition leaks the
    marker: no DEL is issued and the marker is still in the store when the
    closure returns. *)
Definition relock_failure_leaks_marker : Prop :=
  forall m name f h e pre s post err,
    trace (invoke m name f h e) = pre ++ EvCall s :: post ->
    EvLock m (Some err) ∈ post ->
    (forall r derr, EvDo (DEL name) r derr ∉ post) /\
    store (env (invoke m name f h e)) !! name <> None.

(** The reading of step 5 under which the mutex is never held while the
    body runs: whenever the body starts, the lock key of the job is
    free. *)
Definition body_runs_unlocked : Prop :=
  forall m name f h e mx pre s post,
    h !! m = Some mx ->
    mname mx = mutexName name ->
    trace (invoke m name f h e) = pre ++ EvCall s :: post ->
    s !! mutexName name = None.

(** The reading under which every activation builds a mutex object of its
    own. *)
Definition fresh_mutex_per_activation : Prop :=
  forall name f st h e,
    exists m key,
      EvNewMutex m key ∈
        trace (exec (lock name f st).1 {| heap := h; env := e; trace := [] |}).

(** * The schedule and its start routine *)

(** ** The schedule builder (distcron.go, lines 18-83) *)

Record Job := { Spec : string; Name : string; Func : Store -> Store }.

(** The logger of the Go struct is the [EvError]/[EvInfo] events of the
    trace. *)
Record Schedule := {
  jobs : list Job;
  redisHost : string;
  redisPort : Z;
  redisDB : Z
}.

Definition New : Schedule :=
  {| jobs := []; redisHost := "localhost"; redisPort := 6379; redisDB := 0 |}.

Definition WithRedisHost (host : string) (s : Schedule) : Schedule :=
  {| jobs := jobs s; redisHost := host; redisPort := redisPort s; redisDB := redisDB s |}.

Definition WithRedisPort (port : Z) (s : Schedule) : Schedule :=
  {| jobs := jobs s; redisHost := redisHost s; redisPort := port; redisDB := redisDB s |}.

Definition WithRedisDB (db : Z) (s : Schedule) : Schedule :=
  {| jobs := jobs s; redisHost := redisHost s; redisPort := redisPort s; redisDB := db |}.

Definition AddJob (spec name : string) (f : Store -> Store) (s : Schedule) : Schedule :=
  {| jobs := jobs s ++ [{| Spec := spec; Name := name; Func := f |}];
     redisHost := redisHost s; redisPort := redisPort s; redisDB := redisDB s |}.

(** ** [Run] (distcron.go, lines 92-147) *)

Section StartRoutine.

(** The cron parser, external to the repository: does a time-spec
    parse? *)
Variable parse_spec : string -> bool.

(** [c.AddFunc(spec, cmd)]: the entry is registered when the spec parses,
    an error is returned otherwise. *)
Definition AddFunc (spec : string) (cmd : Prog) (entries : list Prog)
    : option Err * list Prog :=
  if parse_spec spec then (None, entries ++ [cmd]) else (Some ErrSpec, entries).

(** The registration loop.  The argument [s.lock(...)] is evaluated, and
    the job's mutex object built, before [AddFunc] looks at the spec. *)
Fixpoint add_jobs (js : list Job) (entries : list Prog) (st : State)
    : option Err * list Prog * State :=
  match js with
  | [] => (None, entries, st)
  | job :: js' =>
      let (cmd, st1) := lock (Name job) (Func job) st in
      match AddFunc (Spec job) cmd entries with
      | (Some err, _) => (Some err, entries, st1)
      | (None, entries') => add_jobs js' entries' st1
      end
  end.

(** [c.Run()]: the timer engine calls the entries that fall due, here
    given by their indices in firing order, until the signal listener
    stops it.  Each activation is run to its return before the next one
    starts: the overlap of activations of one process with one another,
    and with the teardown that waits for them, is not represented. *)
Fixpoint cron_run (entries : list Prog) (firings : list nat) (st : State) : State :=
  match firings with
  | [] => st
  | i :: rest =>
      cron_run entries rest
        (match entries !! i with Some cmd => exec cmd st | None => st end)
  end.

Definition Run (s : Schedule) (firings : list nat) (st : State) : option Err * State :=
  let '(_, err, st1) := redis_do PING st in
  match err with
  | Some err => (Some err, st1)
  | None =>
      match add_jobs (jobs s) [] st1 with
      | (Some err, _, st2) => (Some err, st2)
      | (None, entries, st2) =>
          let st3 := log_info "starting jobs" st2 in
          let st4 := cron_run entries firings st3 in
          let st5 := log_info "caught shutdown signal, starting teardown" st4 in
          (None, log_info "teardown process completed" st5)
      end
  end.

End StartRoutine.

(** * A fleet of processes sharing one store *)

Record Proc := { pheap : list Mutex; pcode : Prog; ptrace : list Event }.

Record Fleet := { shared : Env; procs : list Proc }.

(** A process wraps the job once, at startup. *)
Definition boot (name : string) (f : Store -> Store) (e : Env) : Proc :=
  let (g, st) := lock name f {| heap := []; env := e; trace := [] |} in
  {| pheap := heap st; pcode := g; ptrace := [] |}.

Definition fleet (n : nat) (name : string) (f : Store -> Store) (e : Env) : Fleet :=
  {| shared := e; procs := replicate n (boot name f e) |}.

(** Process [i] performs the next call of its activation. *)
Definition fleet_step (fl : Fleet) (i : nat) : Fleet :=
  match procs fl !! i with
  | None => fl
  | Some p =>
      let (code', st') :=
        step (pcode p) {| heap := pheap p; env := shared fl; trace := ptrace p |} in
      {| shared := env st';
         procs := <[i := {| pheap := heap st'; pcode := code'; ptrace := trace st' |}]>
                    (procs fl) |}
  end.

(** A schedule names, call by call, the process that moves next. *)
Definition run_fleet (sched : list nat) (fl : Fleet) : Fleet :=
  foldl fleet_step fl sched.

Definition is_call (ev : Event) : bool :=
  match ev with EvCall _ => true | _ => false end.

(** How many times the job body ran, over the whole fleet. *)
Definition executions (fl : Fleet) : nat :=
  sum_list (map (fun p => length (filter is_call (ptrace p))) (procs fl)).

(** * A concrete job

    The job of the specification's scenario, its mutex object as [lock]
    builds it in a new process, and two environments: a store without the
    keys of the job, and a store in which the job is already marked. *)

Definition report : string := "daily-report".

Definition report_mutex : list Mutex :=
  [{| mname := mutexName report; mvalue := None |}].

Definition idle (l : list bool) : Env :=
  {| store := ∅; tokens := 0; calls := 0; net := l |}.

Definition marked (l : list bool) : Env :=
  {| store := {[ report := VInt 1 ]}; tokens := 0; calls := 0; net := l |}.

(** A new process wraps a job and the timer engine fires it twice. *)
Definition twice (name : string) (f : Store -> Store) (e : Env) : State :=
  let (g, st) := lock name f {| heap := []; env := e; trace := [] |} in
  exec g (exec g st).

(** A parser that accepts the every-minute spec only, and a schedule with
    one good and one bad time-spec. *)
Definition every_minute (spec : string) : bool :=
  bool_decide (spec = "* * * * *").

Definition good_schedule : Schedule := AddJob "* * * * *" report id New.

Definition bad_schedule : Schedule := AddJob "every day" "cleanup" id good_schedule.

(** The reading under which racing processes run the body of one firing
    at most once between them. *)
Definition at_most_one_execution : Prop :=
  forall n name f e sched,
    2 <= n -> executions (run_fleet sched (fleet n name f e)) <= 1.

(** Two processes, the first of which completes its activation before the
    second makes its first call; and the same two with the second racing
    while the first is about to enter the body. *)
Definition one_after_the_other : list nat := replicate 10 0 ++ replicate 10 1.

Definition overlapping : list nat :=
  replicate 5 0 ++ replicate 3 1 ++ replicate 7 0.

(** * Registration, job by job *)

(** What [Run] builds for a job: its mutex object, the entry it registers
    with the timer engine, and the event of building the object; [base] is
    the number of mutex objects the process had before. *)
Definition job_mutex (job : Job) : Mutex :=
  {| mname := mutexName (Name job); mvalue := None |}.

Definition job_entry (base i : nat) (job : Job) : Prog :=
  lock_closure (base + i) (Name job) (Func job).

Definition job_built (base i : nat) (job : Job) : Event :=
  EvNewMutex (base + i) (mutexName (Name job)).

Definition is_new_mutex (ev : Event) : Prop :=
  match ev with EvNewMutex _ _ => True | _ => False end.

(** The mutex objects of the jobs [js], built from index [base] on, are in
    the heap, each under the lock key of its job. *)
Definition mutexes_in_place (base : nat) (js : list Job) (h : list Mutex) : Prop :=
  forall i job,
    js !! i = Some job ->
    exists v, h !! (base + i) = Some {| mname := mutexName (Name job); mvalue := v |}.

(** * Builder calls *)

(** The calls an application chains on [New()] before [Run]. *)
Inductive BuilderCall :=
| CallWithRedisHost (host : string)
| CallWithRedisPort (port : Z)
| CallWithRedisDB (db : Z)
| CallAddJob (spec name : string) (f : Store -> Store).

Definition apply_call (s : Schedule) (c : BuilderCall) : Schedule :=
  match c with
  | CallWithRedisHost host => WithRedisHost host s
  | CallWithRedisPort port => WithRedisPort port s
  | CallWithRedisDB db => WithRedisDB db s
  | CallAddJob spec name f => AddJob spec name f s
  end.

Definition build (cs : list BuilderCall) : Schedule := foldl apply_call New cs.

(** The jobs a chain of calls adds, and the connection settings it leaves,
    read off the chain. *)
Definition added_job (c : BuilderCall) : option Job :=
  match c with
  | CallAddJob spec name f => Some {| Spec := spec; Name := name; Func := f |}
  | _ => None
  end.

Definition set_host (c : BuilderCall) : option string :=
  match c with CallWithRedisHost host => Some host | _ => None end.

Definition set_port (c : BuilderCall) : option Z :=
  match c with CallWithRedisPort port => Some port | _ => None end.

Definition set_db (c : BuilderCall) : option Z :=
  match c with CallWithRedisDB db => Some db | _ => None end.

(** * More of the concrete job *)

(** A store with an unrelated key. *)
Definition elsewhere (l : list bool) : Env :=
  {| store := {[ "other" := VInt 5 ]}; tokens := 0; calls := 0; net := l |}.

Definition report_state (e : Env) : State :=
  {| heap := report_mutex; env := e; trace := [] |}.

(** * The commands of the closure *)

(** The commands the closure itself issues through [pool.Get().Do], in
    the order it issues them.  What redsync sends on the lock key for
    [Lock] and [Unlock] is not among them. *)
Definition commands_of (t : list Event) : list Command :=
  omap (fun ev => match ev with EvDo c _ _ => Some c | _ => None end) t.

(** * Following an activation along its events *)

#[global] Instance Err_eq_dec : EqDecision Err.
Proof. solve_decision. Defined.

#[global] Instance Command_eq_dec : EqDecision Command.
Proof. solve_decision. Defined.

(** The rest of a program once it has produced the event [ev]; [None] if
    [ev] is not an event of the call the program is about to make. *)
Definition follow (p : Prog) (ev : Event) : option Prog :=
  match p, ev with
  | Lock m k, EvLock m' r => if decide (m' = m) then Some (k r) else None
  | Unlock m k, EvUnlock m' ok => if decide (m' = m) then Some (k ok) else None
  | Do c k, EvDo c' r err => if decide (c' = c) then Some (k r err) else None
  | Call _ k, EvCall _ => Some k
  | LogError err msg k, EvError err' msg' =>
      if decide (err' = err /\ msg' = msg) then Some k else None
  | LogInfo msg k, EvInfo msg' => if decide (msg' = msg) then Some k else None
  | _, _ => None
  end.

Fixpoint resume (p : Prog) (t : list Event) : option Prog :=
  match t with
  | [] => Some p
  | ev :: t' =>
      match follow p ev with
      | Some p' => resume p' t'
      | None => None
      end
  end.

(** ** Where an activation stands, read off its events

    [Locked]: the lock is acquired and the marker not yet read; [Chosen]:
    the marker was read and found nil, and is about to be written;
    [Marking]: the marker is written and the DEL not yet issued; [Idle]:
    anything else (not started, skipped, or past the DEL). *)
Inductive Phase := Idle | Locked | Chosen | Marking.

Definition wrote (ev : Event) : bool :=
  match ev with EvDo (SET _ _) _ None => true | _ => false end.

Definition deleting (ev : Event) : bool :=
  match ev with EvDo (DEL _) _ _ => true | _ => false end.

Definition marking (t : list Event) : bool :=
  existsb wrote t && negb (existsb deleting t).

Definition phase_of (t : list Event) : Phase :=
  match t with
  | [EvLock _ None] => Locked
  | [EvLock _ None; EvDo (GET _) RNil None] => Chosen
  | _ => if marking t then Marking else Idle
  end.

Definition phase (p : Proc) : Phase := phase_of (ptrace p).

Definition claiming (p : Proc) : Prop := phase p = Chosen \/ phase p = Marking.

(** The token the process last locked with. *)
Definition token (h : list Mutex) : option nat := head h ≫= mvalue.

(** ** What one call of an activation does to the shared store

    [moves name f ph v s n ph' v' s' n']: a process in phase [ph] whose
    mutex holds token [v] makes a call that takes the store from [s] to
    [s'] and the token supply from [n] to [n'], and leaves it in phase
    [ph'] with token [v']. *)
Inductive moves (name : string) (f : Store -> Store) :
    Phase -> option nat -> Store -> nat ->
    Phase -> option nat -> Store -> nat -> Prop :=
| mv_quiet ph ph' v s n n' :
    ph' = ph \/ ph' = Idle -> n <= n' ->
    moves name f ph v s n ph' v s n'
| mv_acquire ph ph' v s n :
    (ph = Idle /\ ph' = Locked) \/ (ph = Marking /\ ph' = Marking) ->
    s !! mutexName name = None ->
    moves name f ph v s n ph' (Some n) (<[mutexName name := VToken n]> s) (S n)
| mv_release ph t s n :
    ph = Idle \/ ph = Marking ->
    s !! mutexName name = Some (VToken t) ->
    moves name f ph (Some t) s n ph (Some t) (delete (mutexName name) s) n
| mv_choose v s n :
    s !! name = None ->
    moves name f Locked v s n Chosen v s n
| mv_write v s n :
    moves name f Chosen v s n Marking v (<[name := VInt 1]> s) n
| mv_body v s n :
    moves name f Marking v s n Marking v (f s) n
| mv_delete v s n :
    moves name f Marking v s n Idle v (delete name s) n.

(** ** The invariant of a fleet racing one job *)

Record safe (name : string) (f : Store -> Store) (fl : Fleet) : Prop := {
  safe_code : forall i p,
    procs fl !! i = Some p ->
    resume (lock_closure 0 name f) (ptrace p) = Some (pcode p) /\
    exists v, pheap p = [{| mname := mutexName name; mvalue := v |}];
  safe_fresh : forall i p t,
    procs fl !! i = Some p -> token (pheap p) = Some t -> t < tokens (shared fl);
  safe_distinct : forall i j p q t,
    procs fl !! i = Some p -> procs fl !! j = Some q ->
    token (pheap p) = Some t -> token (pheap q) = Some t -> i = j;
  safe_holder : forall i p,
    procs fl !! i = Some p -> phase p = Locked \/ phase p = Chosen ->
    exists t, token (pheap p) = Some t /\
              store (shared fl) !! mutexName name = Some (VToken t);
  safe_marker : forall i p,
    procs fl !! i = Some p -> phase p = Marking ->
    is_Some (store (shared fl) !! name);
  safe_one : forall i j p q,
    procs fl !! i = Some p -> procs fl !! j = Some q ->
    claiming p -> claiming q -> i = j
}.

(** Two processes racing the concrete job.  Under [head_start] the first
    has written the marker and is about to call the body when the second
    finds the marker and skips; under [first_call] the first has only
    acquired the lock. *)
Definition head_start : list nat := replicate 5 0 ++ replicate 3 1.

Definition first_call : list nat := [0].

Definition racer (sched : list nat) (i : nat) : Proc :=
  default (boot report id (idle []))
          (procs (run_fleet sched (fleet 2 report id (idle []))) !! i).

(** * Properties of the guarded wrapper *)

(** ** Basic facts about the handlers *)

Lemma reply_get_some k (s : Store) v :
  s !! k = Some v -> reply_of (GET k) s = RBulk v.
Proof. intros H. unfold reply_of. by rewrite H. Qed.

Lemma reply_get_none k (s : Store) :
  s !! k = None -> reply_of (GET k) s = RNil.
Proof. intros H. unfold reply_of. by rewrite H. Qed.

Lemma lock_succeeds_free key e :
  lock_succeeds key e = true -> store e !! key = None.
Proof.
  unfold lock_succeeds. intros [_ H]%andb_prop. by apply bool_decide_eq_true in H.
Qed.

Lemma append_length (a b : string) :
  String.length (a +:+ b) = String.length a + String.length b.
Proof. induction a as [|c a IH]; simpl; [done | by f_equal]. Qed.

Lemma mutexName_length name :
  String.length (mutexName name) = 7 + String.length name.
Proof. unfold mutexName. by rewrite append_length. Qed.

Lemma mutexName_neq name : mutexName name <> name.
Proof.
  intros H. apply (f_equal String.length) in H.
  rewrite mutexName_length in H. lia.
Qed.

(** Splitting a list given by its elements around one occurrence. *)
Lemma cons_split {A} (x : A) l pre y post :
  x :: l = pre ++ y :: post ->
  (pre = [] /\ x = y /\ l = post) \/
  (exists pre', pre = x :: pre' /\ l = pre' ++ y :: post).
Proof.
  destruct pre as [|z pre]; cbn; intros H; injection H as -> ->; eauto.
Qed.

Lemma nil_split {A} (pre : list A) y post : [] = pre ++ y :: post -> False.
Proof. by destruct pre. Qed.

(** ** Symbolic execution of the closure

    [paths] runs the closure on a symbolic state and splits on every
    decision the environment takes: whether the mutex object exists,
    whether a lock or unlock goes through, whether a Redis call gets
    through, and whether the marker is there. *)

Ltac run_cbv :=
  cbv beta iota zeta delta
    [invoke exec mutex_lock mutex_unlock redis_do effect_of call_func
     log_error log_info emit called drawn id lock_closure net_ok
     heap env trace store tokens calls net fst snd app].

Ltac heap_lookup :=
  rewrite ?list_lookup_insert_eq
    by (rewrite ?length_insert; eapply lookup_lt_Some; eassumption).

Ltac branch :=
  lazymatch goal with
  | |- context [match ?h !! ?m with _ => _ end] =>
      lazymatch type of h with list Mutex => destruct (h !! m) eqn:? end
  | |- context [if lock_succeeds ?k ?e then _ else _] =>
      destruct (lock_succeeds k e) eqn:?
  | |- context [if unlock_succeeds ?k ?e then _ else _] =>
      destruct (unlock_succeeds k e) eqn:?
  | |- context [if answers ?n ?l then _ else _] =>
      destruct (answers n l) eqn:?
  | |- context [reply_of (GET ?k) ?s] =>
      destruct (s !! k) eqn:?;
      [ erewrite (reply_get_some k s) by eassumption
      | rewrite (reply_get_none k s) by assumption ]
  end.

Ltac paths e :=
  destruct e as [? ? ? ?]; run_cbv; repeat (branch; run_cbv; heap_lookup; run_cbv).

(** Membership in, and splittings of, a trace given by its elements. *)
Ltac no_elem H :=
  repeat (apply elem_of_cons in H as [H|H]; [by simplify_eq|]);
  by apply elem_of_nil in H.

Ltac find_elem :=
  repeat first [ apply list_elem_of_here | apply list_elem_of_further ].

Ltac split_trace H :=
  repeat (apply cons_split in H as [(-> & ? & ?)|(? & -> & H)]);
  try (exfalso; exact (nil_split _ _ _ H)).

(** ** The mutex object across activations *)

(** An activation leaves the mutex object of the job in place, under the
    same key: what [lock] builds holds for every later activation. *)
Lemma invoke_keeps_mutex m name f h e mx :
  h !! m = Some mx ->
  exists v, heap (invoke m name f h e) !! m = Some {| mname := mname mx; mvalue := v |}.
Proof.
  intros Hm. destruct e as [s0 t0 c0 n0]; run_cbv. rewrite Hm.
  repeat (branch; run_cbv; heap_lookup; run_cbv).
  all: rewrite ?Hm; heap_lookup; destruct mx; by eexists.
Qed.

(** ** The lock key *)


(** ** Skipping *)

(** C2. Whenever the marker read of an activation comes back non-nil, the
    activation neither calls the job body nor issues a SET for the job
    name. *)
Theorem present_marker_skips m name f h e :
  (exists r, r <> RNil /\ EvDo (GET name) r None ∈ trace (invoke m name f h e)) ->
  (forall s, EvCall s ∉ trace (invoke m name f h e)) /\
  (forall v r err, EvDo (SET name v) r err ∉ trace (invoke m name f h e)).
Proof.
  paths e; intros (r & Hr & Hin); try (exfalso; no_elem Hin).
  all: split; intros; intros Hno; no_elem Hno.
Qed.

(** C3. Fail-closed: in every activation, a failed lock acquisition or a
    failed Redis command that is not preceded by the job body is not
    followed by it either, so the body is not called at all. *)
Theorem failure_before_body_skips m name f h e pre ev post :
  trace (invoke m name f h e) = pre ++ ev :: post ->
  failed ev ->
  (forall s, EvCall s ∉ pre) ->
  forall s, EvCall s ∉ trace (invoke m name f h e).
Proof.
  paths e; intros Hsplit Hfail Hpre s Hin; try no_elem Hin.
  all: split_trace Hsplit; simplify_eq; try done.
  all: try (eapply Hpre; find_elem).
Qed.

(** C10. On each skip path that follows a successful acquisition (the
    marker read fails, the marker is already there, or the marker write
    fails) the activation never calls Unlock: the lock key still holds the
    token of this activation's mutex when the closure returns, a further
    Lock on that key fails, and only the key's expiry frees it. *)
Theorem skip_after_acquire_keeps_lock m name f h e :
  (exists r err, EvDo (GET name) r (Some err) ∈ trace (invoke m name f h e)) \/
  (exists r, r <> RNil /\ EvDo (GET name) r None ∈ trace (invoke m name f h e)) \/
  (exists v r err, EvDo (SET name v) r (Some err) ∈ trace (invoke m name f h e)) ->
  (forall m' ok, EvUnlock m' ok ∉ trace (invoke m name f h e)) /\
  exists mx t,
    heap (invoke m name f h e) !! m = Some mx /\
    mvalue mx = Some t /\
    store (env (invoke m name f h e)) !! mname mx = Some (VToken t) /\
    lock_succeeds (mname mx) (env (invoke m name f h e)) = false /\
    store (expire (mname mx) (env (invoke m name f h e))) !! mname mx = None.
Proof.
  paths e.
  all: intros [(? & ? & Hin)|[(? & ? & Hin)|(? & ? & ? & Hin)]];
    try (exfalso; no_elem Hin).
  all: (split; [intros m' ok Hno; no_elem Hno|]).
  all: eexists _, _; heap_lookup; split; [reflexivity|]; split; [reflexivity|].
  all: cbv [lock_succeeds expire]; cbn [store mname]; rewrite lookup_insert_eq.
  all: split; [reflexivity|]; split; [apply andb_false_r | apply lookup_delete_eq].
Qed.

(** ** The full cycle *)

(** C4. When all nine steps of an activation succeed, the closure returns
    with the marker key absent and the lock key absent; if moreover the
    body leaves the store alone, the store is exactly what it was before
    the activation. *)
Theorem full_cycle_restores m name f h e mx :
  h !! m = Some mx ->
  mname mx = mutexName name ->
  all_steps_succeed (trace (invoke m name f h e)) ->
  store (env (invoke m name f h e)) !! name = None /\
  store (env (invoke m name f h e)) !! mutexName name = None /\
  ((forall s, f s = s) -> store (env (invoke m name f h e)) = store e).
Proof.
  intros Hm Hname. pose proof (mutexName_neq name) as Hne.
  destruct e as [s0 t0 c0 n0]; run_cbv. rewrite Hm.
  repeat (branch; run_cbv; heap_lookup; run_cbv).
  all: intros (Hcall & Hlock & Hdo & Hunlock).
  all: try (destruct Hcall as [s Hs]; exfalso; no_elem Hs).
  all: try (exfalso; first [ eapply Hlock; solve [find_elem]
                           | eapply Hdo; solve [find_elem]
                           | eapply Hunlock; solve [find_elem] ]).
  cbn [mname] in *. rewrite Hname in *.
  split; [|split].
  - rewrite lookup_delete_ne by done. apply lookup_delete_eq.
  - apply lookup_delete_eq.
  - intros Hid. rewrite !Hid.
    match goal with H : lock_succeeds _ {| store := s0 |} = true |- _ =>
      apply lock_succeeds_free in H; cbn [store] in H; rename H into Hfree end.
    match goal with H : <[_:=_]> s0 !! name = None |- _ =>
      rewrite lookup_insert_ne in H by done; rename H into Habsent end.
    apply map_eq. intros k.
    destruct (decide (k = mutexName name)) as [->|Hk1].
    { by rewrite lookup_delete_eq, Hfree. }
    rewrite lookup_delete_ne by done.
    destruct (decide (k = name)) as [->|Hk2].
    { by rewrite lookup_delete_eq, Habsent. }
    rewrite lookup_delete_ne, lookup_insert_ne, lookup_delete_ne,
      !lookup_insert_ne by done.
    done.
Qed.

(** C5, as amended. In every activation that reaches the body, Unlock is
    called before the body and only logging lies between the two, and the
    body starts with the marker present.  The activation has released the
    mutex by then only when that Unlock returned true: the lock key then
    no longer holds the token the activation locked with, [tokens e].
    When Unlock returned false, the failure is logged and the body is
    called all the same. *)
Theorem unlock_call_precedes_body m name f h e mx pre s post :
  h !! m = Some mx ->
  mname mx = mutexName name ->
  trace (invoke m name f h e) = pre ++ EvCall s :: post ->
  exists pre' ok logs,
    pre = pre' ++ EvUnlock m ok :: logs /\
    Forall is_log logs /\
    (ok = true -> s !! mutexName name <> Some (VToken (tokens e))) /\
    (ok = false ->
       EvError ErrUnlock "unlock did not return a true value" ∈ logs) /\
    s !! name = Some (VInt 1).
Proof.
  intros Hm Hname. pose proof (mutexName_neq name) as Hne.
  destruct e as [s0 t0 c0 n0]; run_cbv. rewrite Hm.
  repeat (branch; run_cbv; heap_lookup; run_cbv).
  all: intros Hsplit; split_trace Hsplit; simplify_eq.
  all: cbn [mname] in *; rewrite Hname in *.
  all: eexists [_; _; _], _, _; (split; [reflexivity|]);
    (split; [by repeat constructor|]).
  all: rewrite ?lookup_delete_eq, ?lookup_delete_ne, ?lookup_insert_eq by done.
  all: repeat split; try done.
  all: intros _; find_elem.
Qed.

(** ** Cleanup after the body *)

(** C7, as amended. When the body has run and the re-acquisition fails,
    the failure is logged and the deletion of the marker is attempted all
    the same: the closure goes on to issue the DEL for the marker, right
    after the log line. *)
Theorem relock_failure_still_issues_del m name f h e pre s post :
  trace (invoke m name f h e) = pre ++ EvCall s :: post ->
  (exists err, EvLock m (Some err) ∈ post) ->
  exists err r derr rest,
    post = [EvInfo "job finished, removing job lock";
            EvLock m (Some err);
            EvError err "lock not obtained";
            EvDo (DEL name) r derr] ++ rest.
Proof.
  paths e.
  all: intros Hsplit [err Hin]; split_trace Hsplit; simplify_eq.
  all: try (exfalso; no_elem Hin).
  all: by eexists _, _, _, _.
Qed.

(** ** The mutex object of a job *)

(** C6, as amended. [lock] builds exactly one mutex object, under the lock
    key of the job, when the job is wrapped; the closure it returns builds
    none: every activation, and within an activation both the first
    acquisition and the one after the body, locks and unlocks that one
    captured object. *)
Theorem closure_reuses_captured_mutex name f st h e :
  trace (lock name f st).2 =
    trace st ++ [EvNewMutex (length (heap st)) (mutexName name)] /\
  heap (lock name f st).2 !! length (heap st) =
    Some {| mname := mutexName name; mvalue := None |} /\
  (forall m key,
      EvNewMutex m key ∉
        trace (exec (lock name f st).1 {| heap := h; env := e; trace := [] |})) /\
  (forall m r,
      EvLock m r ∈
        trace (exec (lock name f st).1 {| heap := h; env := e; trace := [] |}) ->
      m = length (heap st)) /\
  (forall m ok,
      EvUnlock m ok ∈
        trace (exec (lock name f st).1 {| heap := h; env := e; trace := [] |}) ->
      m = length (heap st)) /\
  length (heap (exec (lock name f st).1 {| heap := h; env := e; trace := [] |})) =
    length h.
Proof.
  split; [reflexivity|]. split.
  { cbn. by rewrite lookup_app_r, Nat.sub_diag. }
  cbn [lock fst]. generalize (length (heap st)) as m. intros m.
  change (exec (lock_closure m name f) {| heap := h; env := e; trace := [] |})
    with (invoke m name f h e).
  paths e.
  all: split; [intros ? ? Hin; no_elem Hin|].
  all: split; [intros ? ? Hin; no_elem Hin|].
  all: split; [intros ? ? Hin; no_elem Hin|].
  all: by rewrite ?length_insert.
Qed.

(** * Properties of the start routine *)

Section StartRoutineProps.

Variable parse_spec : string -> bool.

Lemma add_jobs_no_call js entries st s :
  EvCall s ∈ trace (add_jobs parse_spec js entries st).2 -> EvCall s ∈ trace st.
Proof.
  revert entries st. induction js as [|job js IH]; intros entries st; cbn; [done|].
  unfold AddFunc. destruct (parse_spec (Spec job)); cbn.
  - intros H%IH. cbn in H. apply elem_of_app in H as [H|H]; [done|].
    apply list_elem_of_singleton in H. discriminate.
  - intros H. apply elem_of_app in H as [H|H]; [done|].
    apply list_elem_of_singleton in H. discriminate.
Qed.

Lemma add_jobs_malformed js entries st :
  Exists (fun job => parse_spec (Spec job) = false) js ->
  (add_jobs parse_spec js entries st).1.1 = Some ErrSpec.
Proof.
  intros H. revert entries st.
  induction js as [|job js IH]; intros entries st; [by inversion H|].
  cbn. unfold AddFunc. destruct (parse_spec (Spec job)) eqn:Hp; [|done].
  apply IH. inversion H; subst; [congruence | done].
Qed.

Lemma add_jobs_well_formed js entries st :
  Forall (fun job => parse_spec (Spec job) = true) js ->
  (add_jobs parse_spec js entries st).1.1 = None.
Proof.
  intros H. revert entries st.
  induction H as [|job js Hp _ IH]; intros entries st; [done|].
  cbn. unfold AddFunc. rewrite Hp. apply IH.
Qed.

(** C8. [Run] returns an error when the PING does not get through or
    when the time-spec of some registered job does not parse, and then no
    job body has run; when the PING gets through and every time-spec
    parses, [Run] returns nil once the timer engine has been stopped and
    the activations it started have returned. *)
Theorem Run_reports_startup_errors s firings h e :
  (net_ok e = false \/
   Exists (fun job => parse_spec (Spec job) = false) (jobs s) ->
   (exists err,
       (Run parse_spec s firings {| heap := h; env := e; trace := [] |}).1 = Some err) /\
   (forall s',
       EvCall s' ∉
         trace (Run parse_spec s firings {| heap := h; env := e; trace := [] |}).2)) /\
  (net_ok e = true ->
   Forall (fun job => parse_spec (Spec job) = true) (jobs s) ->
   (Run parse_spec s firings {| heap := h; env := e; trace := [] |}).1 = None).
Proof.
  unfold Run, redis_do. cbn [env heap trace].
  destruct (net_ok e) eqn:Hnet; cbn [fst snd].
  - split.
    + intros [?|Hbad]; [done|].
      match goal with |- context [add_jobs parse_spec ?js ?en ?st] =>
        pose proof (add_jobs_malformed js en st Hbad) as Herr;
        pose proof (fun s' => add_jobs_no_call js en st s') as Hcalls;
        destruct (add_jobs parse_spec js en st) as [[oerr entries] st2]
      end.
      cbn in Herr. subst oerr. cbn. split; [by eexists|].
      intros s' Hin. apply Hcalls in Hin. cbn in Hin.
      apply list_elem_of_singleton in Hin. discriminate.
    + intros _ Hgood.
      match goal with |- context [add_jobs parse_spec ?js ?en ?st] =>
        pose proof (add_jobs_well_formed js en st Hgood) as Herr;
        destruct (add_jobs parse_spec js en st) as [[oerr entries] st2]
      end.
      cbn in Herr. by subst oerr.
  - split; [|done]. intros _. split; [by eexists|].
    intros s' Hin. cbn in Hin. apply list_elem_of_singleton in Hin. discriminate.
Qed.

End StartRoutineProps.

(** * The scenario, evaluated *)

Lemma present_marker_skips_witness :
  (exists r, r <> RNil /\
     EvDo (GET report) r None ∈ trace (invoke 0 report id report_mutex (marked []))) /\
  (forall s, EvCall s ∉ trace (invoke 0 report id report_mutex (marked []))) /\
  (forall v r err,
     EvDo (SET report v) r err ∉ trace (invoke 0 report id report_mutex (marked []))).
Proof.
  assert (H : exists r, r <> RNil /\
     EvDo (GET report) r None ∈ trace (invoke 0 report id report_mutex (marked []))).
  { exists (RBulk (VInt 1)). split; [discriminate|]. vm_compute. find_elem. }
  split; [exact H|]. exact (present_marker_skips 0 report id report_mutex (marked []) H).
Defined.

Lemma failure_before_body_skips_witness :
  trace (invoke 0 report id report_mutex (idle [true; true; false])) =
    [EvLock 0 None; EvDo (GET report) RNil None] ++
    EvDo (SET report (VInt 1)) RNil (Some ErrConn) ::
    [EvError ErrConn "could not set job key, not running"] /\
  failed (EvDo (SET report (VInt 1)) RNil (Some ErrConn)) /\
  (forall s, EvCall s ∉ [EvLock 0 None; EvDo (GET report) RNil None]) /\
  (forall s, EvCall s ∉ trace (invoke 0 report id report_mutex (idle [true; true; false]))).
Proof.
  assert (Ht : trace (invoke 0 report id report_mutex (idle [true; true; false])) =
    [EvLock 0 None; EvDo (GET report) RNil None] ++
    EvDo (SET report (VInt 1)) RNil (Some ErrConn) ::
    [EvError ErrConn "could not set job key, not running"]) by reflexivity.
  assert (Hp : forall s, EvCall s ∉ [EvLock 0 None; EvDo (GET report) RNil None]).
  { intros s Hin. no_elem Hin. }
  split; [exact Ht|]. split; [exact I|]. split; [exact Hp|].
  exact (failure_before_body_skips 0 report id report_mutex _ _ _ _ Ht I Hp).
Defined.

Lemma skip_after_acquire_keeps_lock_witness :
  (exists r, r <> RNil /\
     EvDo (GET report) r None ∈ trace (invoke 0 report id report_mutex (marked []))) /\
  (forall m' ok, EvUnlock m' ok ∉ trace (invoke 0 report id report_mutex (marked []))) /\
  store (env (invoke 0 report id report_mutex (marked []))) !! mutexName report =
    Some (VToken 0).
Proof.
  assert (H : exists r, r <> RNil /\
     EvDo (GET report) r None ∈ trace (invoke 0 report id report_mutex (marked []))).
  { exists (RBulk (VInt 1)). split; [discriminate|]. vm_compute. find_elem. }
  split; [exact H|].
  destruct (skip_after_acquire_keeps_lock 0 report id report_mutex (marked [])
              (or_intror (or_introl H))) as [Hno _].
  split; [exact Hno | reflexivity].
Defined.

Lemma full_cycle_restores_witness :
  report_mutex !! 0 = Some {| mname := mutexName report; mvalue := None |} /\
  all_steps_succeed (trace (invoke 0 report id report_mutex (idle []))) /\
  store (env (invoke 0 report id report_mutex (idle []))) !! report = None /\
  store (env (invoke 0 report id report_mutex (idle []))) !! mutexName report = None /\
  store (env (invoke 0 report id report_mutex (idle []))) = store (idle []).
Proof.
  assert (Hall : all_steps_succeed (trace (invoke 0 report id report_mutex (idle [])))).
  { repeat split.
    - eexists. vm_compute. find_elem.
    - intros m err Hin. vm_compute in Hin. no_elem Hin.
    - intros c r err Hin. vm_compute in Hin. no_elem Hin.
    - intros m Hin. vm_compute in Hin. no_elem Hin. }
  destruct (full_cycle_restores 0 report id report_mutex (idle []) _
              eq_refl eq_refl Hall) as (H1 & H2 & H3).
  split; [reflexivity|]. split; [exact Hall|]. split; [exact H1|].
  split; [exact H2|]. apply H3. reflexivity.
Defined.

Lemma unlock_call_precedes_body_witness :
  report_mutex !! 0 = Some {| mname := mutexName report; mvalue := None |} /\
  trace (invoke 0 report id report_mutex (idle [])) =
    [EvLock 0 None; EvDo (GET report) RNil None;
     EvDo (SET report (VInt 1)) (RStatus "OK") None;
     EvUnlock 0 true; EvInfo "staring job"] ++
    EvCall {[ report := VInt 1 ]} ::
    [EvInfo "job finished, removing job lock"; EvLock 0 None;
     EvDo (DEL report) (RInteger 1) None; EvUnlock 0 true] /\
  exists pre' ok logs,
    [EvLock 0 None; EvDo (GET report) RNil None;
     EvDo (SET report (VInt 1)) (RStatus "OK") None;
     EvUnlock 0 true; EvInfo "staring job"] = pre' ++ EvUnlock 0 ok :: logs /\
    Forall is_log logs /\
    (ok = true ->
       ({[ report := VInt 1 ]} : Store) !! mutexName report <>
         Some (VToken (tokens (idle [])))) /\
    (ok = false ->
       EvError ErrUnlock "unlock did not return a true value" ∈ logs) /\
    ({[ report := VInt 1 ]} : Store) !! report = Some (VInt 1).
Proof.
  assert (Ht : trace (invoke 0 report id report_mutex (idle [])) =
    [EvLock 0 None; EvDo (GET report) RNil None;
     EvDo (SET report (VInt 1)) (RStatus "OK") None;
     EvUnlock 0 true; EvInfo "staring job"] ++
    EvCall {[ report := VInt 1 ]} ::
    [EvInfo "job finished, removing job lock"; EvLock 0 None;
     EvDo (DEL report) (RInteger 1) None; EvUnlock 0 true]) by reflexivity.
  split; [reflexivity|]. split; [exact Ht|].
  exact (unlock_call_precedes_body 0 report id report_mutex (idle []) _ _ _ _
           eq_refl eq_refl Ht).
Defined.

(** C5, as stated, fails: in this activation Unlock returns false, which
    is logged, and the body is called while the lock key still holds the
    token of the activation. *)
Lemma body_runs_unlocked_fails :
  take 7 (trace (invoke 0 report id report_mutex (idle [true; true; true; false]))) =
    [EvLock 0 None; EvDo (GET report) RNil None;
     EvDo (SET report (VInt 1)) (RStatus "OK") None;
     EvUnlock 0 false;
     EvError ErrUnlock "unlock did not return a true value";
     EvInfo "staring job";
     EvCall (<[report := VInt 1]> {[ mutexName report := VToken 0 ]})] /\
  (<[report := VInt 1]> ({[ mutexName report := VToken 0 ]} : Store))
    !! mutexName report = Some (VToken 0) /\
  ~ body_runs_unlocked.
Proof.
  split; [reflexivity|]. split; [reflexivity|].
  intros Hclaim.
  assert (Ht : trace (invoke 0 report id report_mutex (idle [true; true; true; false])) =
    [EvLock 0 None; EvDo (GET report) RNil None;
     EvDo (SET report (VInt 1)) (RStatus "OK") None;
     EvUnlock 0 false;
     EvError ErrUnlock "unlock did not return a true value";
     EvInfo "staring job"] ++
    EvCall (<[report := VInt 1]> {[ mutexName report := VToken 0 ]}) ::
    [EvInfo "job finished, removing job lock"; EvLock 0 (Some ErrFailed);
     EvError ErrFailed "lock not obtained";
     EvDo (DEL report) (RInteger 1) None; EvUnlock 0 true]) by reflexivity.
  pose proof (Hclaim 0 report id report_mutex (idle [true; true; true; false])
                _ _ _ _ eq_refl eq_refl Ht) as Hfree.
  vm_compute in Hfree. discriminate Hfree.
Qed.

Lemma relock_failure_still_issues_del_witness :
  trace (invoke 0 report id report_mutex (idle [true; true; true; true; false])) =
    [EvLock 0 None; EvDo (GET report) RNil None;
     EvDo (SET report (VInt 1)) (RStatus "OK") None;
     EvUnlock 0 true; EvInfo "staring job"] ++
    EvCall {[ report := VInt 1 ]} ::
    [EvInfo "job finished, removing job lock"; EvLock 0 (Some ErrFailed);
     EvError ErrFailed "lock not obtained";
     EvDo (DEL report) (RInteger 1) None; EvUnlock 0 false;
     EvError ErrUnlock "unlock did not return a true value"] /\
  exists err r derr rest,
    [EvInfo "job finished, removing job lock"; EvLock 0 (Some ErrFailed);
     EvError ErrFailed "lock not obtained";
     EvDo (DEL report) (RInteger 1) None; EvUnlock 0 false;
     EvError ErrUnlock "unlock did not return a true value"] =
    [EvInfo "job finished, removing job lock"; EvLock 0 (Some err);
     EvError err "lock not obtained"; EvDo (DEL report) r derr] ++ rest.
Proof.
  assert (Ht : trace (invoke 0 report id report_mutex (idle [true; true; true; true; false])) =
    [EvLock 0 None; EvDo (GET report) RNil None;
     EvDo (SET report (VInt 1)) (RStatus "OK") None;
     EvUnlock 0 true; EvInfo "staring job"] ++
    EvCall {[ report := VInt 1 ]} ::
    [EvInfo "job finished, removing job lock"; EvLock 0 (Some ErrFailed);
     EvError ErrFailed "lock not obtained";
     EvDo (DEL report) (RInteger 1) None; EvUnlock 0 false;
     EvError ErrUnlock "unlock did not return a true value"]) by reflexivity.
  split; [exact Ht|].
  apply (relock_failure_still_issues_del 0 report id report_mutex _ _ _ _ Ht).
  exists ErrFailed. find_elem.
Defined.

(** C7, as stated, fails: in this activation the re-acquisition after the
    body fails, and the DEL is issued all the same and removes the
    marker. *)
Lemma relock_failure_leaks_marker_fails :
  (EvLock 0 (Some ErrFailed) ∈
     trace (invoke 0 report id report_mutex (idle [true; true; true; true; false]))) /\
  (EvDo (DEL report) (RInteger 1) None ∈
     trace (invoke 0 report id report_mutex (idle [true; true; true; true; false]))) /\
  store (env (invoke 0 report id report_mutex (idle [true; true; true; true; false])))
    !! report = None /\
  ~ relock_failure_leaks_marker.
Proof.
  split; [vm_compute; find_elem|]. split; [vm_compute; find_elem|].
  split; [reflexivity|].
  intros H.
  destruct (H 0 report id report_mutex (idle [true; true; true; true; false])
    [EvLock 0 None; EvDo (GET report) RNil None;
     EvDo (SET report (VInt 1)) (RStatus "OK") None;
     EvUnlock 0 true; EvInfo "staring job"]
    {[ report := VInt 1 ]}
    [EvInfo "job finished, removing job lock"; EvLock 0 (Some ErrFailed);
     EvError ErrFailed "lock not obtained";
     EvDo (DEL report) (RInteger 1) None; EvUnlock 0 false;
     EvError ErrUnlock "unlock did not return a true value"]
    ErrFailed eq_refl) as [_ Hleft].
  - find_elem.
  - apply Hleft. reflexivity.
Qed.

(** C6, as stated, fails: a process wraps the job and activates the
    closure twice; the mutex object is built once, by [lock], and the four
    acquisitions of the two activations all lock that object. *)
Lemma fresh_mutex_per_activation_fails :
  map (fun ev => match ev with EvCall _ => EvInfo "body" | _ => ev end)
      (trace (twice report id (idle []))) =
    [EvNewMutex 0 "GLOBAL-daily-report";
     EvLock 0 None; EvDo (GET report) RNil None;
     EvDo (SET report (VInt 1)) (RStatus "OK") None; EvUnlock 0 true;
     EvInfo "staring job"; EvInfo "body"; EvInfo "job finished, removing job lock";
     EvLock 0 None; EvDo (DEL report) (RInteger 1) None; EvUnlock 0 true;
     EvLock 0 None; EvDo (GET report) RNil None;
     EvDo (SET report (VInt 1)) (RStatus "OK") None; EvUnlock 0 true;
     EvInfo "staring job"; EvInfo "body"; EvInfo "job finished, removing job lock";
     EvLock 0 None; EvDo (DEL report) (RInteger 1) None; EvUnlock 0 true] /\
  ~ fresh_mutex_per_activation.
Proof.
  split; [reflexivity|].
  intros H.
  destruct (H report id {| heap := []; env := idle []; trace := [] |}
              report_mutex (idle [])) as (m & key & Hin).
  vm_compute in Hin. no_elem Hin.
Qed.

Lemma Run_reports_startup_errors_witness :
  (Exists (fun job => every_minute (Spec job) = false) (jobs bad_schedule) /\
   (exists err,
      (Run every_minute bad_schedule [0; 1]
         {| heap := []; env := idle []; trace := [] |}).1 = Some err) /\
   (forall s',
      EvCall s' ∉
        trace (Run every_minute bad_schedule [0; 1]
                 {| heap := []; env := idle []; trace := [] |}).2)) /\
  (net_ok (idle []) = true /\
   Forall (fun job => every_minute (Spec job) = true) (jobs good_schedule) /\
   (Run every_minute good_schedule [0; 0]
      {| heap := []; env := idle []; trace := [] |}).1 = None).
Proof.
  assert (Hbad : Exists (fun job => every_minute (Spec job) = false) (jobs bad_schedule)).
  { apply Exists_cons_tl, Exists_cons_hd. reflexivity. }
  assert (Hgood : Forall (fun job => every_minute (Spec job) = true) (jobs good_schedule)).
  { repeat constructor. }
  split.
  - split; [exact Hbad|].
    exact (proj1 (Run_reports_startup_errors every_minute bad_schedule [0; 1] [] (idle []))
             (or_intror Hbad)).
  - split; [reflexivity|]. split; [exact Hgood|].
    exact (proj2 (Run_reports_startup_errors every_minute good_schedule [0; 0] [] (idle []))
             eq_refl Hgood).
Defined.

(** * Racing processes *)

Lemma exec_step p st : exec p st = exec (step p st).1 (step p st).2.
Proof.
  destruct p as [|m k|m k|c k|f k|err msg k|msg k]; cbn; try done.
  - by destruct (mutex_lock m st).
  - by destruct (mutex_unlock m st).
  - by destruct (redis_do c st) as [[r err] st'].
Qed.

(** A call made by a process of the fleet is a call of its activation:
    running the activation to its return gives the same state before and
    after the call. *)
Lemma fleet_step_exec fl i p :
  procs fl !! i = Some p ->
  exists p',
    procs (fleet_step fl i) !! i = Some p' /\
    exec (pcode p') {| heap := pheap p'; env := shared (fleet_step fl i); trace := ptrace p' |} =
    exec (pcode p) {| heap := pheap p; env := shared fl; trace := ptrace p |}.
Proof.
  intros Hp. unfold fleet_step. rewrite Hp.
  rewrite (exec_step (pcode p)).
  destruct (step (pcode p) _) as [code' [h' e' t']]. cbn.
  eexists. split.
  - apply list_lookup_insert_eq. by eapply lookup_lt_Some.
  - reflexivity.
Qed.

(** The scenario of the specification: the second process reads the marker
    while the first is about to enter the body, and skips. *)
Example overlapping_racer_skips :
  executions (run_fleet overlapping (fleet 2 report id (idle []))) = 1 /\
  store (shared (run_fleet overlapping (fleet 2 report id (idle [])))) !! report = None.
Proof. split; reflexivity. Qed.

(** C1. At most one of the processes racing a firing runs the body: the
    code does not ensure it.  When the first of two processes has returned
    from its activation, marker deleted, before the second makes its first
    call for the same firing, the second finds no marker and runs the body
    again. *)
Theorem late_racer_runs_body_again :
  executions (run_fleet one_after_the_other (fleet 2 report id (idle []))) = 2 /\
  ~ at_most_one_execution.
Proof.
  assert (H : executions (run_fleet one_after_the_other (fleet 2 report id (idle []))) = 2)
    by reflexivity.
  split; [exact H|].
  intros Hone. specialize (Hone 2 report id (idle []) one_after_the_other (le_n 2)).
  rewrite H in Hone. lia.
Qed.

(** * More on the guarded wrapper *)

(** ** Activations from an arbitrary recorder *)

Lemma exec_extends_trace p h e t :
  exec p {| heap := h; env := e; trace := t |} =
  {| heap := heap (exec p {| heap := h; env := e; trace := [] |});
     env := env (exec p {| heap := h; env := e; trace := [] |});
     trace := t ++ trace (exec p {| heap := h; env := e; trace := [] |}) |}.
Proof.
  revert h e t.
  induction p as [|m k IH|m k IH|c k IH|f k IH|err msg k IH|msg k IH]; intros h e t.
  - cbn. by rewrite app_nil_r.
  - cbn [exec]. unfold mutex_lock, emit. cbn [heap env trace app].
    destruct (h !! m) as [mx|]; [destruct (lock_succeeds _ _)|];
      rewrite IH; symmetry; rewrite IH; cbn [heap env trace]; by rewrite <- app_assoc.
  - cbn [exec]. unfold mutex_unlock, emit. cbn [heap env trace app].
    destruct (h !! m) as [mx|]; [destruct (unlock_succeeds _ _)|];
      rewrite IH; symmetry; rewrite IH; cbn [heap env trace]; by rewrite <- app_assoc.
  - cbn [exec]. unfold redis_do, emit. cbn [heap env trace app].
    destruct (net_ok e);
      rewrite IH; symmetry; rewrite IH; cbn [heap env trace]; by rewrite <- app_assoc.
  - cbn [exec]. unfold call_func, emit. cbn [heap env trace app].
    rewrite IH; symmetry; rewrite IH; cbn [heap env trace]; by rewrite <- app_assoc.
  - cbn [exec]. unfold log_error, emit. cbn [heap env trace app].
    rewrite IH; symmetry; rewrite IH; cbn [heap env trace]; by rewrite <- app_assoc.
  - cbn [exec]. unfold log_info, emit. cbn [heap env trace app].
    rewrite IH; symmetry; rewrite IH; cbn [heap env trace]; by rewrite <- app_assoc.
Qed.

Lemma exec_closure_invoke m name f st :
  exec (lock_closure m name f) st =
  {| heap := heap (invoke m name f (heap st) (env st));
     env := env (invoke m name f (heap st) (env st));
     trace := trace st ++ trace (invoke m name f (heap st) (env st)) |}.
Proof. destruct st as [h e t]. apply exec_extends_trace. Qed.

(** ** A marker that is already there *)

Lemma invoke_marked m name f h e v :
  store e !! name = Some v ->
  (forall s, EvCall s ∉ trace (invoke m name f h e)) /\
  store (env (invoke m name f h e)) !! name = Some v.
Proof.
  intros Hv. destruct e as [s0 t0 c0 n0]. cbn [store] in Hv. run_cbv.
  repeat (branch; run_cbv; heap_lookup; run_cbv).
  all: try match goal with H : lock_succeeds ?k _ = true |- _ =>
             apply lock_succeeds_free in H; cbn [store] in H;
             assert (k <> name) by congruence end.
  all: try match goal with H : <[_:=_]> _ !! _ = None |- _ =>
             rewrite lookup_insert_ne in H by done; congruence end.
  all: (split; [intros s Hin; no_elem Hin|]).
  all: rewrite ?lookup_insert_ne by done; done.
Qed.

(** X1. A marker left in the store (by a crashed worker, or by an activation
    whose DEL failed) blocks the job: however often the timer engine fires
    it and whatever the network does, the body is not called and the marker
    stays as it is. *)
Theorem leaked_marker_blocks_every_firing m name f firings st v :
  store (env st) !! name = Some v ->
  (forall s,
      EvCall s ∈ trace (cron_run [lock_closure m name f] firings st) ->
      EvCall s ∈ trace st) /\
  store (env (cron_run [lock_closure m name f] firings st)) !! name = Some v.
Proof.
  revert st. induction firings as [|i firings IH]; intros st Hv; cbn [cron_run].
  { done. }
  destruct i as [|i]; cbn [lookup list_lookup]; [|by apply IH].
  rewrite exec_closure_invoke.
  destruct (invoke_marked m name f (heap st) (env st) v Hv) as [Hno Hkeep].
  match goal with |- context [cron_run _ _ ?st1] =>
    destruct (IH st1 Hkeep) as [Hcalls Hstore] end.
  split; [|done].
  intros s Hin. apply Hcalls in Hin. cbn [trace] in Hin.
  apply elem_of_app in Hin as [Hin|Hin]; [done|]. by apply Hno in Hin.
Qed.

(** ** A lock that is not obtained *)

(** X2. When the first Lock returns an error the activation ends there: the
    error is logged under "could not obtain lock" and nothing follows, no
    command of the closure, no body and no Unlock. *)
Theorem failed_lock_returns_at_once m name f h e err rest :
  trace (invoke m name f h e) = EvLock m (Some err) :: rest ->
  rest = [EvError err "could not obtain lock"].
Proof.
  paths e.
  all: intros Ht; by simplify_eq.
Qed.

(** ** What surrounds the body *)

(** X3. The body is called at most once in an activation, and only after this
    activation has acquired the lock, read a nil marker and written the
    marker, in that order. *)
Theorem body_called_once_after_claim m name f h e pre s post :
  trace (invoke m name f h e) = pre ++ EvCall s :: post ->
  (exists r ok logs,
      pre = [EvLock m None; EvDo (GET name) RNil None;
             EvDo (SET name (VInt 1)) r None; EvUnlock m ok] ++ logs /\
      Forall is_log logs) /\
  (forall s', EvCall s' ∉ post).
Proof.
  paths e.
  all: intros Hsplit; split_trace Hsplit; simplify_eq.
  all: (split; [eexists _, _, _; split; [reflexivity|]; by repeat constructor|]).
  all: intros s' Hin; no_elem Hin.
Qed.

(** X4. Once the body has returned, the closure always goes through the whole
    cleanup, whatever fails on the way: it calls Lock, issues the DEL for
    the marker and calls Unlock, in that order, with nothing but logging in
    between. *)
Theorem cleanup_always_attempted m name f h e pre s post :
  trace (invoke m name f h e) = pre ++ EvCall s :: post ->
  exists lerr logs1 r derr logs2 ok logs3,
    post = EvInfo "job finished, removing job lock" :: EvLock m lerr :: logs1 ++
           EvDo (DEL name) r derr :: logs2 ++ EvUnlock m ok :: logs3 /\
    Forall is_log logs1 /\ Forall is_log logs2 /\ Forall is_log logs3.
Proof.
  paths e.
  all: intros Hsplit; split_trace Hsplit; simplify_eq.
  all: first
    [ by (eexists _, [], _, _, [], _, []; repeat split; repeat constructor)
    | by (eexists _, [], _, _, [], _, [_]; repeat split; repeat constructor)
    | by (eexists _, [], _, _, [_], _, []; repeat split; repeat constructor)
    | by (eexists _, [], _, _, [_], _, [_]; repeat split; repeat constructor)
    | by (eexists _, [_], _, _, [], _, []; repeat split; repeat constructor)
    | by (eexists _, [_], _, _, [], _, [_]; repeat split; repeat constructor)
    | by (eexists _, [_], _, _, [_], _, []; repeat split; repeat constructor)
    | by (eexists _, [_], _, _, [_], _, [_]; repeat split; repeat constructor) ].
Qed.

(** ** What the guard touches *)

(** X5. The commands the closure itself issues through [pool.Get().Do] are,
    in this order and each at most once, GET on the job name, SET of 1 on
    the job name and DEL on the job name: an activation issues an initial
    stretch of these three, and no other command of its own. *)
Theorem closure_commands_in_order m name f h e :
  commands_of (trace (invoke m name f h e)) `prefix_of`
    [GET name; SET name (VInt 1); DEL name].
Proof.
  paths e.
  all: cbn [commands_of omap list_omap]; by eexists.
Qed.

(** X6. A key that is neither the marker key nor the lock key of the job, and
    that the body leaves alone, holds after the activation what it held
    before. *)
Theorem other_keys_untouched m name f h e k :
  k <> name ->
  (forall mx, h !! m = Some mx -> k <> mname mx) ->
  (forall s, f s !! k = s !! k) ->
  store (env (invoke m name f h e)) !! k = store e !! k.
Proof.
  intros Hk Hlk Hf. destruct e as [s0 t0 c0 n0]. run_cbv.
  destruct (h !! m) as [mx|] eqn:Hm; [|done].
  specialize (Hlk mx eq_refl). run_cbv.
  assert (name <> k) as Hk' by done. assert (mname mx <> k) as Hlk' by done.
  repeat (branch; run_cbv; heap_lookup; run_cbv).
  all: cbn [mname].
  all: repeat first [ rewrite lookup_delete_ne by done
                    | rewrite lookup_insert_ne by done
                    | rewrite Hf ].
  all: done.
Qed.

(** ** A job that is free to run *)

(** X8. When neither the marker nor the lock key of the job is in the store,
    the next seven network calls get through and the body does not create
    the lock key, the activation goes through all its steps: the body is
    called and nothing fails. *)
Theorem free_job_runs m name f h e mx :
  h !! m = Some mx ->
  mname mx = mutexName name ->
  store e !! name = None ->
  store e !! mutexName name = None ->
  (forall i, i < 7 -> answers (i + calls e) (net e) = true) ->
  (forall s, s !! mutexName name = None -> f s !! mutexName name = None) ->
  all_steps_succeed (trace (invoke m name f h e)).
Proof.
  intros Hm Hname Hmarker Hlock Hnet Hf.
  pose proof (mutexName_neq name) as Hne.
  destruct e as [s0 t0 c0 n0]. cbn [store calls net] in *.
  destruct mx as [key val]. cbn [mname] in Hname. subst key.
  pose proof (Hnet 0 ltac:(lia)) as H0. pose proof (Hnet 1 ltac:(lia)) as H1.
  pose proof (Hnet 2 ltac:(lia)) as H2. pose proof (Hnet 3 ltac:(lia)) as H3.
  pose proof (Hnet 4 ltac:(lia)) as H4. pose proof (Hnet 5 ltac:(lia)) as H5.
  pose proof (Hnet 6 ltac:(lia)) as H6. cbn [Nat.add] in *.
  run_cbv. rewrite Hm.
  repeat (run_cbv; heap_lookup;
          unfold lock_succeeds, unlock_succeeds;
          cbv beta iota delta [net_ok store calls net mname mvalue];
          rewrite ?H0, ?H1, ?H2, ?H3, ?H4, ?H5, ?H6;
          rewrite ?(reply_get_none name) by (by rewrite lookup_insert_ne);
          rewrite ?Hf by apply lookup_delete_eq;
          rewrite ?Hlock;
          rewrite ?(lookup_delete_ne _ name), ?(lookup_insert_ne _ name),
            ?lookup_insert_eq by done;
          rewrite ?bool_decide_eq_true_2 by done;
          cbn [andb]).
  repeat split.
  - eexists. find_elem.
  - intros ? ? Hin. no_elem Hin.
  - intros ? ? ? Hin. no_elem Hin.
  - intros ? Hin. no_elem Hin.
Qed.

(** * More on the start routine *)

Section RegistrationProps.

Variable parse_spec : string -> bool.

Lemma add_jobs_registers js entries st :
  Forall (fun job => parse_spec (Spec job) = true) js ->
  add_jobs parse_spec js entries st =
    (None, entries ++ imap (job_entry (length (heap st))) js,
     {| heap := heap st ++ map job_mutex js;
        env := env st;
        trace := trace st ++ imap (job_built (length (heap st))) js |}).
Proof.
  intros H. revert entries st.
  induction H as [|job js Hp _ IH]; intros entries st.
  { cbn. rewrite !app_nil_r. by destruct st. }
  cbn [add_jobs lock]. unfold AddFunc. rewrite Hp. rewrite IH.
  unfold emit. cbn [heap env trace]. rewrite length_app. cbn [length].
  rewrite (imap_ext (job_entry (length (heap st) + 1))
             (job_entry (length (heap st)) ∘ S))
    by (intros; unfold job_entry; cbn; f_equal; lia).
  rewrite (imap_ext (job_built (length (heap st) + 1))
             (job_built (length (heap st)) ∘ S))
    by (intros; unfold job_built; cbn; f_equal; lia).
  rewrite <- !app_assoc. cbn [app map imap].
  unfold job_entry, job_built, job_mutex. by rewrite Nat.add_0_r.
Qed.

Lemma add_jobs_stops good bad rest entries st :
  Forall (fun job => parse_spec (Spec job) = true) good ->
  parse_spec (Spec bad) = false ->
  add_jobs parse_spec (good ++ bad :: rest) entries st =
    (Some ErrSpec, entries ++ imap (job_entry (length (heap st))) good,
     {| heap := heap st ++ map job_mutex (good ++ [bad]);
        env := env st;
        trace := trace st ++ imap (job_built (length (heap st))) (good ++ [bad]) |}).
Proof.
  intros H Hbad. revert entries st.
  induction H as [|job js Hp _ IH]; intros entries st.
  { cbn [app add_jobs lock]. unfold AddFunc. rewrite Hbad.
    unfold emit, job_built. cbn. by rewrite app_nil_r, Nat.add_0_r. }
  cbn [app add_jobs lock]. unfold AddFunc. rewrite Hp. rewrite IH.
  unfold emit. cbn [heap env trace]. rewrite length_app. cbn [length].
  rewrite (imap_ext (job_entry (length (heap st) + 1))
             (job_entry (length (heap st)) ∘ S))
    by (intros; unfold job_entry; cbn; f_equal; lia).
  rewrite (imap_ext (job_built (length (heap st) + 1))
             (job_built (length (heap st)) ∘ S))
    by (intros; unfold job_built; cbn; f_equal; lia).
  rewrite <- !app_assoc. cbn [app map imap].
  unfold job_entry, job_built, job_mutex. by rewrite Nat.add_0_r.
Qed.

(** X9. Registration stops at the first time-spec that does not parse: [Run]
    has then built the mutex objects of the jobs up to and including that
    one (the wrapper is built before the spec is looked at), none for the
    jobs after it, has logged nothing, and has sent Redis nothing but the
    PING. *)
Theorem first_malformed_spec_stops_registration s firings h e good bad rest :
  net_ok e = true ->
  jobs s = good ++ bad :: rest ->
  Forall (fun job => parse_spec (Spec job) = true) good ->
  parse_spec (Spec bad) = false ->
  Run parse_spec s firings {| heap := h; env := e; trace := [] |} =
    (Some ErrSpec,
     {| heap := h ++ map job_mutex (good ++ [bad]);
        env := called (store e) e;
        trace := EvDo PING (RStatus "PONG") None ::
                 imap (job_built (length h)) (good ++ [bad]) |}).
Proof.
  intros Hnet Hjobs Hgood Hbad.
  unfold Run, redis_do. cbn [env heap trace]. rewrite Hnet, Hjobs.
  unfold emit. cbn [heap env trace app reply_of effect_of].
  by rewrite (add_jobs_stops good bad rest [] _ Hgood Hbad).
Qed.

End RegistrationProps.

(** ** Firing the registered entries *)

Lemma invoke_keeps_heap m name f h e :
  length (heap (invoke m name f h e)) = length h /\
  forall m' mx,
    h !! m' = Some mx ->
    exists v, heap (invoke m name f h e) !! m' =
              Some {| mname := mname mx; mvalue := v |}.
Proof.
  paths e.
  all: (split; [by rewrite ?length_insert|]).
  all: intros m' mx Hm'.
  all: destruct (decide (m' = m)) as [->|Hne];
    [ | rewrite ?list_lookup_insert_ne by done; rewrite Hm'; destruct mx; by eexists ].
  all: rewrite Hm' in *; simplify_eq; heap_lookup; cbn [mname].
  all: try (by eexists).
  all: match goal with x : Mutex |- _ => destruct x; by eexists end.
Qed.

Lemma invoke_builds_nothing m name f h e :
  Forall (fun ev => ~ is_new_mutex ev) (trace (invoke m name f h e)).
Proof. paths e. all: repeat constructor; by intros []. Qed.

Lemma cron_run_registered base js firings st :
  mutexes_in_place base js (heap st) ->
  length (heap (cron_run (imap (job_entry base) js) firings st)) = length (heap st) /\
  mutexes_in_place base js (heap (cron_run (imap (job_entry base) js) firings st)) /\
  exists acts,
    trace (cron_run (imap (job_entry base) js) firings st) = trace st ++ acts /\
    Forall (fun ev => ~ is_new_mutex ev) acts.
Proof.
  revert st. induction firings as [|i firings IH]; intros st Hin; cbn [cron_run].
  { split; [done|]. split; [done|]. exists []. by rewrite app_nil_r. }
  rewrite list_lookup_imap.
  destruct (js !! i) as [job|] eqn:Hjob; cbn [fmap option_fmap option_map]; [|by apply IH].
  change (job_entry base i job) with (lock_closure (base + i) (Name job) (Func job)).
  rewrite exec_closure_invoke.
  destruct (invoke_keeps_heap (base + i) (Name job) (Func job) (heap st) (env st))
    as [Hlen Hkeep].
  pose proof (invoke_builds_nothing (base + i) (Name job) (Func job) (heap st) (env st))
    as Hnone.
  match goal with |- context [cron_run _ _ ?st1] =>
    destruct (IH st1) as (Hl & Hm & acts & Ht & Hacts) end.
  { intros j job' Hj. destruct (Hin j job' Hj) as [v Hv].
    destruct (Hkeep _ _ Hv) as [v' Hv']. by exists v'. }
  cbn [heap trace] in *.
  split; [by rewrite Hl|]. split; [done|].
  eexists. rewrite Ht, <- app_assoc. split; [reflexivity|].
  by apply Forall_app.
Qed.

Lemma job_mutexes_in_place (h : list Mutex) js :
  mutexes_in_place (length h) js (h ++ map job_mutex js).
Proof.
  intros i job Hjob. exists None.
  rewrite lookup_app_r by lia.
  replace (length h + i - length h) with i by lia.
  by rewrite list_lookup_fmap, Hjob.
Qed.

Section RunProps.

Variable parse_spec : string -> bool.

(** X10. When the PING gets through and every time-spec parses, the first
    events of [Run] are, in this order: the PING, one mutex object built
    per job, in the order the jobs were added, and the log line "starting
    jobs".  Nothing that comes after builds a mutex object. *)
Theorem Run_registers_before_firing s firings h e :
  net_ok e = true ->
  Forall (fun job => parse_spec (Spec job) = true) (jobs s) ->
  exists rest,
    trace (Run parse_spec s firings {| heap := h; env := e; trace := [] |}).2 =
      EvDo PING (RStatus "PONG") None ::
      imap (job_built (length h)) (jobs s) ++
      EvInfo "starting jobs" :: rest /\
    Forall (fun ev => ~ is_new_mutex ev) rest.
Proof.
  intros Hnet Hgood.
  unfold Run, redis_do. cbn [env heap trace]. rewrite Hnet.
  rewrite (add_jobs_registers parse_spec _ _ _ Hgood).
  unfold log_info, emit. cbn [heap env trace app reply_of effect_of snd].
  match goal with |- context [cron_run _ _ ?st1] =>
    destruct (cron_run_registered (length h) (jobs s) firings st1)
      as (_ & _ & acts & Ht & Hacts) end.
  { apply job_mutexes_in_place. }
  eexists. split.
  { rewrite Ht. cbn [trace app]. rewrite <- !app_assoc. cbn [app]. reflexivity. }
  apply Forall_app. split; [done|].
  repeat constructor; by intros [].
Qed.

(** X11. [Run] builds exactly one mutex object per job and firing builds none:
    when [Run] returns after a clean start, each job still has its object,
    at the place it was built and under the lock key of its name. *)
Theorem Run_keeps_job_mutexes s firings h e :
  net_ok e = true ->
  Forall (fun job => parse_spec (Spec job) = true) (jobs s) ->
  length (heap (Run parse_spec s firings {| heap := h; env := e; trace := [] |}).2) =
    length h + length (jobs s) /\
  mutexes_in_place (length h) (jobs s)
    (heap (Run parse_spec s firings {| heap := h; env := e; trace := [] |}).2).
Proof.
  intros Hnet Hgood.
  unfold Run, redis_do. cbn [env heap trace]. rewrite Hnet.
  rewrite (add_jobs_registers parse_spec _ _ _ Hgood).
  unfold log_info, emit. cbn [heap env trace app reply_of effect_of snd].
  match goal with |- context [cron_run _ _ ?st1] =>
    destruct (cron_run_registered (length h) (jobs s) firings st1)
      as (Hlen & Hin & _) end.
  { apply job_mutexes_in_place. }
  split; [|done].
  rewrite Hlen. cbn [heap]. by rewrite length_app, length_map.
Qed.

(** X12. When every time-spec parses, the registration loop returns no
    error and registers, as its [i]-th entry, the guarded wrapper for the
    name and body of the [i]-th job, closed over the mutex object built
    for that job under its lock key. *)
Theorem registered_entry_is_guard js i job st :
  Forall (fun job => parse_spec (Spec job) = true) js ->
  js !! i = Some job ->
  (add_jobs parse_spec js [] st).1.1 = None /\
  (add_jobs parse_spec js [] st).1.2 !! i =
    Some (lock_closure (length (heap st) + i) (Name job) (Func job)) /\
  heap (add_jobs parse_spec js [] st).2 !! (length (heap st) + i) =
    Some {| mname := mutexName (Name job); mvalue := None |}.
Proof.
  intros Hgood Hjob.
  rewrite (add_jobs_registers parse_spec _ _ _ Hgood). cbn [fst snd heap app].
  split; [done|]. split.
  - by rewrite list_lookup_imap, Hjob.
  - rewrite lookup_app_r by lia.
    replace (length (heap st) + i - length (heap st)) with i by lia.
    by rewrite list_lookup_fmap, Hjob.
Qed.

End RunProps.

(** * The builder *)

Lemma foldl_apply_call cs s :
  jobs (foldl apply_call s cs) = jobs s ++ omap added_job cs /\
  redisHost (foldl apply_call s cs) = default (redisHost s) (last (omap set_host cs)) /\
  redisPort (foldl apply_call s cs) = default (redisPort s) (last (omap set_port cs)) /\
  redisDB (foldl apply_call s cs) = default (redisDB s) (last (omap set_db cs)).
Proof.
  revert s. induction cs as [|c cs IH]; intros s.
  { cbn. by rewrite app_nil_r. }
  cbn [foldl]. destruct (IH (apply_call s c)) as (Hj & Hh & Hp & Hd).
  rewrite Hj, Hh, Hp, Hd.
  destruct c; cbn; rewrite ?last_cons, <- ?app_assoc;
    repeat split; try done; by case_match.
Qed.

(** X13. Whatever the order in which an application chains the builder calls,
    the schedule holds the jobs in the order they were added, setters in
    between do not touch them, and each connection setting is the one of
    the last call that set it, or the default of [New] if none did. *)
Theorem build_reads_off_the_chain cs :
  jobs (build cs) = omap added_job cs /\
  redisHost (build cs) = default "localhost" (last (omap set_host cs)) /\
  redisPort (build cs) = default 6379%Z (last (omap set_port cs)) /\
  redisDB (build cs) = default 0%Z (last (omap set_db cs)).
Proof. exact (foldl_apply_call cs New). Qed.

(** * The extended scenario, evaluated *)

Lemma leaked_marker_blocks_every_firing_witness :
  store (env (report_state (marked [true; false]))) !! report = Some (VInt 1) /\
  (forall s,
      EvCall s ∈ trace (cron_run [lock_closure 0 report id] [0; 0; 0]
                          (report_state (marked [true; false]))) ->
      EvCall s ∈ trace (report_state (marked [true; false]))) /\
  store (env (cron_run [lock_closure 0 report id] [0; 0; 0]
                (report_state (marked [true; false])))) !! report = Some (VInt 1).
Proof.
  split; [reflexivity|].
  exact (leaked_marker_blocks_every_firing 0 report id [0; 0; 0]
           (report_state (marked [true; false])) (VInt 1) eq_refl).
Defined.

Lemma failed_lock_returns_at_once_witness :
  trace (invoke 0 report id report_mutex (idle [false])) =
    EvLock 0 (Some ErrFailed) :: [EvError ErrFailed "could not obtain lock"] /\
  [EvError ErrFailed "could not obtain lock"] =
    [EvError ErrFailed "could not obtain lock"].
Proof.
  assert (Ht : trace (invoke 0 report id report_mutex (idle [false])) =
    EvLock 0 (Some ErrFailed) :: [EvError ErrFailed "could not obtain lock"])
    by reflexivity.
  split; [exact Ht|].
  exact (failed_lock_returns_at_once 0 report id report_mutex (idle [false]) _ _ Ht).
Defined.

Lemma body_called_once_after_claim_witness :
  trace (invoke 0 report id report_mutex (idle [])) =
    [EvLock 0 None; EvDo (GET report) RNil None;
     EvDo (SET report (VInt 1)) (RStatus "OK") None;
     EvUnlock 0 true; EvInfo "staring job"] ++
    EvCall {[ report := VInt 1 ]} ::
    [EvInfo "job finished, removing job lock"; EvLock 0 None;
     EvDo (DEL report) (RInteger 1) None; EvUnlock 0 true] /\
  (forall s',
      EvCall s' ∉ [EvInfo "job finished, removing job lock"; EvLock 0 None;
                   EvDo (DEL report) (RInteger 1) None; EvUnlock 0 true]).
Proof.
  assert (Ht : trace (invoke 0 report id report_mutex (idle [])) =
    [EvLock 0 None; EvDo (GET report) RNil None;
     EvDo (SET report (VInt 1)) (RStatus "OK") None;
     EvUnlock 0 true; EvInfo "staring job"] ++
    EvCall {[ report := VInt 1 ]} ::
    [EvInfo "job finished, removing job lock"; EvLock 0 None;
     EvDo (DEL report) (RInteger 1) None; EvUnlock 0 true]) by reflexivity.
  split; [exact Ht|].
  exact (proj2 (body_called_once_after_claim 0 report id report_mutex (idle [])
                  _ _ _ Ht)).
Defined.

Lemma cleanup_always_attempted_witness :
  trace (invoke 0 report id report_mutex (idle [true; true; true; true; false; false; false])) =
    [EvLock 0 None; EvDo (GET report) RNil None;
     EvDo (SET report (VInt 1)) (RStatus "OK") None;
     EvUnlock 0 true; EvInfo "staring job"] ++
    EvCall {[ report := VInt 1 ]} ::
    [EvInfo "job finished, removing job lock"; EvLock 0 (Some ErrFailed);
     EvError ErrFailed "lock not obtained";
     EvDo (DEL report) RNil (Some ErrConn);
     EvError ErrConn "could not remove job lock";
     EvUnlock 0 false;
     EvError ErrUnlock "unlock did not return a true value"] /\
  exists lerr logs1 r derr logs2 ok logs3,
    [EvInfo "job finished, removing job lock"; EvLock 0 (Some ErrFailed);
     EvError ErrFailed "lock not obtained";
     EvDo (DEL report) RNil (Some ErrConn);
     EvError ErrConn "could not remove job lock";
     EvUnlock 0 false;
     EvError ErrUnlock "unlock did not return a true value"] =
    EvInfo "job finished, removing job lock" :: EvLock 0 lerr :: logs1 ++
    EvDo (DEL report) r derr :: logs2 ++ EvUnlock 0 ok :: logs3 /\
    Forall is_log logs1 /\ Forall is_log logs2 /\ Forall is_log logs3.
Proof.
  assert (Ht : trace (invoke 0 report id report_mutex
                        (idle [true; true; true; true; false; false; false])) =
    [EvLock 0 None; EvDo (GET report) RNil None;
     EvDo (SET report (VInt 1)) (RStatus "OK") None;
     EvUnlock 0 true; EvInfo "staring job"] ++
    EvCall {[ report := VInt 1 ]} ::
    [EvInfo "job finished, removing job lock"; EvLock 0 (Some ErrFailed);
     EvError ErrFailed "lock not obtained";
     EvDo (DEL report) RNil (Some ErrConn);
     EvError ErrConn "could not remove job lock";
     EvUnlock 0 false;
     EvError ErrUnlock "unlock did not return a true value"]) by reflexivity.
  split; [exact Ht|].
  exact (cleanup_always_attempted 0 report id report_mutex _ _ _ _ Ht).
Defined.

Lemma other_keys_untouched_witness :
  "other" <> report /\
  (forall mx, report_mutex !! 0 = Some mx -> "other" <> mname mx) /\
  store (env (invoke 0 report id report_mutex (elsewhere []))) !! "other" =
    Some (VInt 5).
Proof.
  assert (H1 : "other" <> report) by discriminate.
  assert (H2 : forall mx, report_mutex !! 0 = Some mx -> "other" <> mname mx).
  { intros mx [= <-]. discriminate. }
  split; [exact H1|]. split; [exact H2|].
  exact (other_keys_untouched 0 report id report_mutex (elsewhere []) "other"
           H1 H2 (fun s => eq_refl)).
Defined.

Lemma free_job_runs_witness :
  report_mutex !! 0 = Some {| mname := mutexName report; mvalue := None |} /\
  store (idle [true; true]) !! report = None /\
  store (idle [true; true]) !! mutexName report = None /\
  (forall i, i < 7 -> answers (i + calls (idle [true; true])) (net (idle [true; true])) = true) /\
  all_steps_succeed (trace (invoke 0 report id report_mutex (idle [true; true]))).
Proof.
  assert (Hnet : forall i, i < 7 ->
            answers (i + calls (idle [true; true])) (net (idle [true; true])) = true).
  { intros i Hi. do 7 (destruct i as [|i]; [reflexivity|]). lia. }
  split; [reflexivity|]. split; [reflexivity|]. split; [reflexivity|].
  split; [exact Hnet|].
  exact (free_job_runs 0 report id report_mutex (idle [true; true]) _
           eq_refl eq_refl eq_refl eq_refl Hnet (fun s H => H)).
Defined.

Lemma first_malformed_spec_stops_registration_witness :
  net_ok (idle []) = true /\
  jobs bad_schedule =
    [{| Spec := "* * * * *"; Name := report; Func := id |}] ++
    {| Spec := "every day"; Name := "cleanup"; Func := id |} :: [] /\
  Run every_minute bad_schedule [0; 1] {| heap := []; env := idle []; trace := [] |} =
    (Some ErrSpec,
     {| heap := [{| mname := "GLOBAL-daily-report"; mvalue := None |};
                 {| mname := "GLOBAL-cleanup"; mvalue := None |}];
        env := called (store (idle [])) (idle []);
        trace := [EvDo PING (RStatus "PONG") None;
                  EvNewMutex 0 "GLOBAL-daily-report";
                  EvNewMutex 1 "GLOBAL-cleanup"] |}).
Proof.
  split; [reflexivity|]. split; [reflexivity|].
  refine (first_malformed_spec_stops_registration every_minute bad_schedule [0; 1] []
            (idle []) [{| Spec := "* * * * *"; Name := report; Func := id |}]
            {| Spec := "every day"; Name := "cleanup"; Func := id |} []
            eq_refl eq_refl _ eq_refl).
  repeat constructor.
Defined.

Lemma Run_registers_before_firing_witness :
  net_ok (idle []) = true /\
  Forall (fun job => every_minute (Spec job) = true) (jobs good_schedule) /\
  exists rest,
    trace (Run every_minute good_schedule [0; 0]
             {| heap := []; env := idle []; trace := [] |}).2 =
      EvDo PING (RStatus "PONG") None ::
      imap (job_built 0) (jobs good_schedule) ++
      EvInfo "starting jobs" :: rest /\
    Forall (fun ev => ~ is_new_mutex ev) rest.
Proof.
  assert (Hgood : Forall (fun job => every_minute (Spec job) = true) (jobs good_schedule))
    by repeat constructor.
  split; [reflexivity|]. split; [exact Hgood|].
  exact (Run_registers_before_firing every_minute good_schedule [0; 0] [] (idle [])
           eq_refl Hgood).
Defined.

Lemma Run_keeps_job_mutexes_witness :
  net_ok (idle []) = true /\
  Forall (fun job => every_minute (Spec job) = true) (jobs good_schedule) /\
  length (heap (Run every_minute good_schedule [0; 0]
                  {| heap := []; env := idle []; trace := [] |}).2) = 1 /\
  mutexes_in_place 0 (jobs good_schedule)
    (heap (Run every_minute good_schedule [0; 0]
             {| heap := []; env := idle []; trace := [] |}).2).
Proof.
  assert (Hgood : Forall (fun job => every_minute (Spec job) = true) (jobs good_schedule))
    by repeat constructor.
  split; [reflexivity|]. split; [exact Hgood|].
  exact (Run_keeps_job_mutexes every_minute good_schedule [0; 0] [] (idle [])
           eq_refl Hgood).
Defined.

Lemma registered_entry_is_guard_witness :
  Forall (fun job => every_minute (Spec job) = true) (jobs good_schedule) /\
  jobs good_schedule !! 0 = Some {| Spec := "* * * * *"; Name := report; Func := id |} /\
  (add_jobs every_minute (jobs good_schedule) []
     {| heap := []; env := idle []; trace := [] |}).1.1 = None /\
  (add_jobs every_minute (jobs good_schedule) []
     {| heap := []; env := idle []; trace := [] |}).1.2 !! 0 =
    Some (lock_closure 0 report id) /\
  heap (add_jobs every_minute (jobs good_schedule) []
          {| heap := []; env := idle []; trace := [] |}).2 !! 0 =
    Some {| mname := mutexName report; mvalue := None |}.
Proof.
  assert (Hgood : Forall (fun job => every_minute (Spec job) = true) (jobs good_schedule))
    by repeat constructor.
  split; [exact Hgood|]. split; [reflexivity|].
  exact (registered_entry_is_guard every_minute (jobs good_schedule) 0
           {| Spec := "* * * * *"; Name := report; Func := id |}
           {| heap := []; env := idle []; trace := [] |} Hgood eq_refl).
Defined.

(** * Racing processes: what the guard does ensure *)

Lemma unlock_succeeds_token mx e :
  unlock_succeeds mx e = true ->
  exists t, mvalue mx = Some t /\ store e !! mname mx = Some (VToken t).
Proof.
  unfold unlock_succeeds. intros [_ H]%andb_prop.
  destruct (mvalue mx) as [t|]; [|discriminate].
  exists t. split; [done|]. by apply bool_decide_eq_true in H.
Qed.

Lemma resume_snoc p t ev :
  resume p (t ++ [ev]) = resume p t ≫= fun q => follow q ev.
Proof.
  revert p. induction t as [|ev' t IH]; intros p; cbn.
  - by destruct (follow p ev).
  - destruct (follow p ev'); [apply IH | done].
Qed.

Lemma step_follow p st :
  (p = Return /\ step p st = (Return, st)) \/
  exists ev, trace (step p st).2 = trace st ++ [ev] /\ follow p ev = Some (step p st).1.
Proof.
  destruct p as [|m k|m k|c k|f k|err msg k|msg k]; [by left|right..];
    cbv [step mutex_lock mutex_unlock redis_do call_func log_error log_info emit];
    cbn [heap env trace fst snd].
  - destruct (heap st !! m) as [mx|]; [destruct (lock_succeeds _ _)|];
      eexists; (split; [reflexivity|]); cbn; by rewrite decide_True.
  - destruct (heap st !! m) as [mx|]; [destruct (unlock_succeeds _ _)|];
      eexists; (split; [reflexivity|]); cbn; by rewrite decide_True.
  - destruct (net_ok (env st));
      eexists; (split; [reflexivity|]); cbn; by rewrite decide_True.
  - eexists; (split; [reflexivity|]); done.
  - eexists; (split; [reflexivity|]); cbn; by rewrite decide_True.
  - eexists; (split; [reflexivity|]); cbn; by rewrite decide_True.
Qed.

Lemma step_resume p0 p st :
  resume p0 (trace st) = Some p ->
  resume p0 (trace (step p st).2) = Some (step p st).1.
Proof.
  intros H. destruct (step_follow p st) as [[-> ->]|(ev & -> & Hf)]; [done|].
  by rewrite resume_snoc, H.
Qed.

Lemma step_keeps_mutex key p v e t :
  exists v',
    heap (step p {| heap := [{| mname := key; mvalue := v |}]; env := e; trace := t |}).2 =
    [{| mname := key; mvalue := v' |}].
Proof.
  destruct p as [|m k|m k|c k|f k|err msg k|msg k];
    cbv [step mutex_lock mutex_unlock redis_do call_func log_error log_info emit];
    cbn [heap env trace fst snd]; try (by eexists).
  - destruct m as [|m]; cbn; [destruct (lock_succeeds _ _)|]; by eexists.
  - destruct m as [|m]; cbn; [destruct (unlock_succeeds _ _)|]; by eexists.
  - destruct (net_ok e); by eexists.
Qed.

(** ** One call of the closure, phase by phase *)

Ltac walk H :=
  cbn [resume follow id] in H;
  lazymatch type of H with
  | None = Some _ => discriminate H
  | Some _ = Some _ => injection H as <-
  | context [decide ?P] =>
      destruct (decide P); [destruct_and?; subst; walk H | walk H]
  | resume (match ?x with _ => _ end) _ = _ => destruct x; walk H
  | resume ((if ?x then _ else _) _) _ = _ => destruct x; walk H
  | resume (match ?x with _ => _ end _) _ = _ => destruct x; walk H
  | resume _ ?t = _ => is_var t; destruct t as [|[] t]; walk H
  end.

Lemma singleton_lookup (x : Mutex) : [x] !! 0 = Some x.
Proof. reflexivity. Qed.

Lemma singleton_insert (x y : Mutex) : <[0 := y]> [x] = [y].
Proof. reflexivity. Qed.

Lemma token_singleton (x : Mutex) : token [x] = mvalue x.
Proof. reflexivity. Qed.

Ltac one_step :=
  cbv beta iota zeta delta
    [step mutex_lock mutex_unlock redis_do effect_of call_func log_error
     log_info emit called drawn id net_ok heap env trace store tokens calls
     net fst snd app];
  rewrite ?singleton_lookup;
  repeat (lazymatch goal with
    | |- context [if lock_succeeds ?k ?e then _ else _] =>
        destruct (lock_succeeds k e) eqn:?
    | |- context [if unlock_succeeds ?k ?e then _ else _] =>
        destruct (unlock_succeeds k e) eqn:?
    | |- context [if answers ?n ?l then _ else _] =>
        destruct (answers n l) eqn:?
    | |- context [reply_of (GET ?k) ?s] =>
        destruct (s !! k) eqn:?;
        [ erewrite (reply_get_some k s) by eassumption
        | rewrite (reply_get_none k s) by assumption ]
    end);
  cbv beta iota zeta delta
    [heap env trace store tokens calls net fst snd app];
  rewrite ?singleton_insert, ?token_singleton;
  cbn [phase_of marking existsb wrote deleting andb orb negb app mvalue mname].

Ltac use_outcome :=
  repeat match goal with
  | H : lock_succeeds _ _ = true |- _ =>
      apply lock_succeeds_free in H; cbn [store] in H
  | H : unlock_succeeds _ _ = true |- _ =>
      apply unlock_succeeds_token in H as (? & ? & H);
      cbn [store mvalue mname] in *; subst
  end.

Ltac solve_moves :=
  first
    [ by (apply mv_quiet; [auto | lia])
    | by (apply mv_acquire; [auto | done])
    | by (apply mv_release; [auto | done])
    | by apply mv_choose
    | by apply mv_write
    | by apply mv_body
    | by apply mv_delete ].

(** Every call the closure can make, from every point it can have
    reached, is one of the moves. *)
Lemma closure_moves name f t code v e :
  resume (lock_closure 0 name f) t = Some code ->
  moves name f (phase_of t) v (store e) (tokens e)
    (phase_of (trace (step code {| heap := [{| mname := mutexName name; mvalue := v |}];
                                    env := e; trace := t |}).2))
    (token (heap (step code {| heap := [{| mname := mutexName name; mvalue := v |}];
                                env := e; trace := t |}).2))
    (store (env (step code {| heap := [{| mname := mutexName name; mvalue := v |}];
                               env := e; trace := t |}).2))
    (tokens (env (step code {| heap := [{| mname := mutexName name; mvalue := v |}];
                                env := e; trace := t |}).2)).
Proof.
  intros H. unfold lock_closure in H. destruct e as [s0 n0 c0 l0].
  walk H.
  all: one_step.
  all: use_outcome.
  all: repeat case_match; solve_moves.
Qed.

Lemma proc_step name f p e v :
  resume (lock_closure 0 name f) (ptrace p) = Some (pcode p) ->
  pheap p = [{| mname := mutexName name; mvalue := v |}] ->
  (resume (lock_closure 0 name f)
     (trace (step (pcode p) {| heap := pheap p; env := e; trace := ptrace p |}).2) =
   Some (step (pcode p) {| heap := pheap p; env := e; trace := ptrace p |}).1 /\
   exists v',
     heap (step (pcode p) {| heap := pheap p; env := e; trace := ptrace p |}).2 =
     [{| mname := mutexName name; mvalue := v' |}]) /\
  moves name f (phase_of (ptrace p)) (token (pheap p)) (store e) (tokens e)
    (phase_of (trace (step (pcode p) {| heap := pheap p; env := e; trace := ptrace p |}).2))
    (token (heap (step (pcode p) {| heap := pheap p; env := e; trace := ptrace p |}).2))
    (store (env (step (pcode p) {| heap := pheap p; env := e; trace := ptrace p |}).2))
    (tokens (env (step (pcode p) {| heap := pheap p; env := e; trace := ptrace p |}).2)).
Proof.
  intros Hres Hheap. rewrite Hheap. split; [split|].
  - by apply (step_resume _ _ {| heap := _; env := e; trace := ptrace p |}).
  - apply step_keeps_mutex.
  - rewrite token_singleton. cbn [mvalue]. by apply closure_moves.
Qed.

(** ** The invariant is kept by every call *)

Lemma lookup_updated {A} (l : list A) i x j y :
  <[i := x]> l !! j = Some y ->
  (j = i /\ y = x) \/ (j <> i /\ l !! j = Some y).
Proof.
  intros [(-> & -> & _)|[? ?]]%list_lookup_insert_Some; [by left | by right].
Qed.

Lemma safe_update name f fl i p p' e' ph v s n ph' v' s' n' :
  (forall s, f s !! name = s !! name) ->
  (forall s, f s !! mutexName name = s !! mutexName name) ->
  safe name f fl ->
  procs fl !! i = Some p ->
  resume (lock_closure 0 name f) (ptrace p') = Some (pcode p') ->
  (exists v', pheap p' = [{| mname := mutexName name; mvalue := v' |}]) ->
  ph = phase p -> v = token (pheap p) ->
  s = store (shared fl) -> n = tokens (shared fl) ->
  ph' = phase p' -> v' = token (pheap p') ->
  s' = store e' -> n' = tokens e' ->
  moves name f ph v s n ph' v' s' n' ->
  safe name f {| shared := e'; procs := <[i := p']> (procs fl) |}.
Proof.
  intros Hfn Hfl [Hc Hf Hd Hh Hm Ho] Hp Hres' Hheap' Eph Ev Es En Eph' Ev' Es' En' Hmv.
  pose proof (mutexName_neq name) as Hne.
  assert (Hfi : forall t, v = Some t -> t < n) by (intros; subst v n; eauto).
  assert (Hhi : ph = Locked \/ ph = Chosen ->
            exists t, v = Some t /\ s !! mutexName name = Some (VToken t))
    by (intros; subst ph v s; eauto).
  assert (Hmi : ph = Marking -> is_Some (s !! name)) by (intros; subst ph s; eauto).
  assert (Hfj : forall j q t,
            procs fl !! j = Some q -> token (pheap q) = Some t -> t < n)
    by (intros; subst n; eauto).
  assert (Hdj : forall j q t,
            procs fl !! j = Some q -> v = Some t -> token (pheap q) = Some t -> i = j)
    by (intros; subst v; eauto).
  assert (Hhj : forall j q,
            procs fl !! j = Some q -> phase q = Locked \/ phase q = Chosen ->
            exists t, token (pheap q) = Some t /\
                      s !! mutexName name = Some (VToken t))
    by (intros; subst s; eauto).
  assert (Hmj : forall j q,
            procs fl !! j = Some q -> phase q = Marking -> is_Some (s !! name))
    by (intros; subst s; eauto).
  assert (Hoj : forall j q,
            procs fl !! j = Some q -> ph = Chosen \/ ph = Marking -> claiming q -> i = j).
  { intros j q Hq Hph Hcl. eapply Ho; eauto. unfold claiming. by rewrite <- Eph. }
  assert (Hn : n <= n') by (destruct Hmv; lia).
  clear Hf Hh Hm Eph Ev Es En.
  split; cbn [shared procs]; rewrite <- ?Es', <- ?En'.
  - (* the code follows the events *)
    intros j q [[-> ->]|[Hj Hq]]%lookup_updated; [done | by eapply Hc].
  - (* tokens come from the supply *)
    intros j q t [[-> ->]|[Hj Hq]]%lookup_updated Ht.
    + rewrite <- Ev' in Ht.
      destruct Hmv; first [ specialize (Hfi _ Ht); lia | injection Ht as <-; lia ].
    + specialize (Hfj j q t Hq Ht). lia.
  - (* no two processes share a token *)
    intros j k q r t [[-> ->]|[Hj Hq]]%lookup_updated
      [[-> ->]|[Hk Hr]]%lookup_updated Hq' Hr'; [done|..].
    + rewrite <- Ev' in Hq'. specialize (Hfj k r t Hr Hr').
      destruct Hmv; first [ by eapply Hdj | injection Hq' as <-; lia ].
    + rewrite <- Ev' in Hr'. specialize (Hfj j q t Hq Hq').
      destruct Hmv; first [ symmetry; by eapply Hdj | injection Hr' as <-; lia ].
    + by eapply Hd.
  - (* who decides holds the lock *)
    intros j q [[-> ->]|[Hj Hq]]%lookup_updated Hph.
    + rewrite <- Eph' in Hph. rewrite <- Ev'.
      destruct Hmv; try (by destruct Hph).
      * match goal with H : _ = _ \/ _ = Idle |- _ => destruct H as [->| ->] end;
          [by apply Hhi | by destruct Hph].
      * match goal with H : _ /\ _ \/ _ /\ _ |- _ =>
          destruct H as [[-> ->]|[-> ->]] end; [|by destruct Hph].
        eexists. split; [done|]. apply lookup_insert_eq.
      * match goal with H : _ = Idle \/ _ = Marking |- _ =>
          destruct H as [->| ->] end; by destruct Hph.
      * apply Hhi. by left.
    + destruct (Hhj j q Hq Hph) as (t & Ht & Hs). exists t. split; [done|].
      destruct Hmv; try done.
      * congruence.
      * assert (i = j) by (eapply Hdj; eauto; congruence). done.
      * by rewrite lookup_insert_ne.
      * by rewrite Hfl.
      * by rewrite lookup_delete_ne.
  - (* who is marking has the marker in the store *)
    intros j q [[-> ->]|[Hj Hq]]%lookup_updated Hph.
    + rewrite <- Eph' in Hph.
      destruct Hmv; try done.
      * match goal with H : _ = _ \/ _ = Idle |- _ => destruct H as [->| ->] end;
          [by apply Hmi | done].
      * match goal with H : _ /\ _ \/ _ /\ _ |- _ =>
          destruct H as [[-> ->]|[-> ->]] end; [done|].
        rewrite lookup_insert_ne by done. by apply Hmi.
      * rewrite lookup_delete_ne by done. by apply Hmi.
      * rewrite lookup_insert_eq. by eexists.
      * rewrite Hfn. by apply Hmi.
    + pose proof (Hmj j q Hq Hph) as Hs.
      destruct Hmv; try done.
      * by rewrite lookup_insert_ne.
      * by rewrite lookup_delete_ne.
      * rewrite lookup_insert. case_decide; [by eexists | done].
      * by rewrite Hfn.
      * assert (i = j); [|done].
        eapply Hoj; eauto. by right.
  - (* at most one process is claiming *)
    assert (Hnew : forall k r,
      procs fl !! k = Some r -> ph' = Chosen \/ ph' = Marking -> claiming r -> i = k).
    { intros k r Hr Hq' Hr'.
      destruct Hmv as [ph ph' v s n n' Hq Hle|ph ph' v s n Hq Hs|ph t s n Hq Hs
                      |v s n Hs|v s n|v s n|v s n].
      - destruct Hq as [->| ->]; [by eapply Hoj | by destruct Hq'].
      - destruct Hq as [[-> ->]|[-> ->]]; [by destruct Hq' | by eapply Hoj; eauto].
      - by eapply Hoj.
      - destruct Hr' as [Hr'|Hr'].
        + destruct (Hhi (or_introl eq_refl)) as (t & Ht & Hst).
          destruct (Hhj k r Hr (or_intror Hr')) as (t' & Ht' & Hst').
          eapply Hdj; eauto. congruence.
        + destruct (Hmj k r Hr Hr') as [x Hx]. congruence.
      - eapply Hoj; eauto.
      - eapply Hoj; eauto.
      - by destruct Hq'. }
    intros j k q r [[-> ->]|[Hj Hq]]%lookup_updated
      [[-> ->]|[Hk Hr]]%lookup_updated Hq' Hr'; [done|..|by eapply Ho].
    + unfold claiming in Hq'. rewrite <- Eph' in Hq'. by eapply Hnew.
    + unfold claiming in Hr'. rewrite <- Eph' in Hr'. symmetry. by eapply Hnew.
Qed.

Lemma fleet_step_safe name f fl i :
  (forall s, f s !! name = s !! name) ->
  (forall s, f s !! mutexName name = s !! mutexName name) ->
  safe name f fl -> safe name f (fleet_step fl i).
Proof.
  intros Hfn Hfl Hsafe. unfold fleet_step.
  destruct (procs fl !! i) as [p|] eqn:Hp; [|done].
  destruct (safe_code _ _ _ Hsafe i p Hp) as [Hres [v Hheap]].
  destruct (proc_step name f p (shared fl) v Hres Hheap) as [[Hres' Hheap'] Hmv].
  destruct (step (pcode p) _) as [code' st']. cbn [fst snd] in *.
  by eapply (safe_update name f fl i p
               {| pheap := heap st'; pcode := code'; ptrace := trace st' |} (env st')).
Qed.

Lemma run_fleet_safe name f sched fl :
  (forall s, f s !! name = s !! name) ->
  (forall s, f s !! mutexName name = s !! mutexName name) ->
  safe name f fl -> safe name f (run_fleet sched fl).
Proof.
  intros Hfn Hfl. unfold run_fleet. revert fl.
  induction sched as [|i sched IH]; intros fl Hsafe; cbn [foldl]; [done|].
  by apply IH, fleet_step_safe.
Qed.

Lemma fleet_safe n name f e : safe name f (fleet n name f e).
Proof.
  assert (Hboot : forall i p,
    procs (fleet n name f e) !! i = Some p -> p = boot name f e).
  { intros i p [-> _]%lookup_replicate. done. }
  split.
  - intros i p ->%Hboot. split; [done | by eexists].
  - by intros i p t ->%Hboot.
  - by intros i j p q t ->%Hboot.
  - intros i p ->%Hboot [H|H]; discriminate H.
  - intros i p ->%Hboot H; discriminate H.
  - intros i j p q ->%Hboot _ [H|H]; discriminate H.
Qed.

Lemma marking_phase t : marking t = true -> phase_of t = Marking.
Proof.
  intros H. unfold phase_of. rewrite H.
  destruct t as [|[] [|[] [|]]]; try done; repeat case_match; try done.
Qed.

Lemma call_point_marking name f t code :
  resume (lock_closure 0 name f) t = Some code ->
  (exists g k, code = Call g k) ->
  marking t = true.
Proof.
  intros H. unfold lock_closure in H. walk H.
  all: intros (g & k & Hcode); try discriminate Hcode.
  all: reflexivity.
Qed.

(** ** What the guard ensures

    In the following the processes of a fleet race one firing of one job,
    the lock key does not expire, and the body leaves the marker key and
    the lock key of the job alone. *)

(** X14. At no moment are two processes both between their marker write
    and their marker DEL. *)
Theorem markers_never_overlap n name f e sched i j p q :
  (forall s, f s !! name = s !! name) ->
  (forall s, f s !! mutexName name = s !! mutexName name) ->
  procs (run_fleet sched (fleet n name f e)) !! i = Some p ->
  procs (run_fleet sched (fleet n name f e)) !! j = Some q ->
  marking (ptrace p) = true ->
  marking (ptrace q) = true ->
  i = j.
Proof.
  intros Hfn Hfl Hp Hq Hmp Hmq.
  pose proof (run_fleet_safe name f sched _ Hfn Hfl (fleet_safe n name f e)) as Hs.
  eapply (safe_one _ _ _ Hs); eauto; right; by apply marking_phase.
Qed.

(** X15. A process that is about to call the body is the only one that
    has written the marker and not yet issued its DEL: bodies of one job
    are never started while another process is inside its own. *)
Theorem body_starts_alone n name f e sched i j p q :
  (forall s, f s !! name = s !! name) ->
  (forall s, f s !! mutexName name = s !! mutexName name) ->
  procs (run_fleet sched (fleet n name f e)) !! i = Some p ->
  procs (run_fleet sched (fleet n name f e)) !! j = Some q ->
  (exists g k, pcode p = Call g k) ->
  marking (ptrace q) = true ->
  i = j.
Proof.
  intros Hfn Hfl Hp Hq Hcall Hmq.
  pose proof (run_fleet_safe name f sched _ Hfn Hfl (fleet_safe n name f e)) as Hs.
  destruct (safe_code _ _ _ Hs i p Hp) as [Hres _].
  pose proof (call_point_marking name f _ _ Hres Hcall) as Hmp.
  eapply (safe_one _ _ _ Hs); eauto; right; by apply marking_phase.
Qed.

(** X16. While a process is between its marker write and its marker DEL,
    the marker is in the store, so that every other process that reads it
    skips. *)
Theorem marker_in_store_while_marking n name f e sched i p :
  (forall s, f s !! name = s !! name) ->
  (forall s, f s !! mutexName name = s !! mutexName name) ->
  procs (run_fleet sched (fleet n name f e)) !! i = Some p ->
  marking (ptrace p) = true ->
  is_Some (store (shared (run_fleet sched (fleet n name f e))) !! name).
Proof.
  intros Hfn Hfl Hp Hmp.
  pose proof (run_fleet_safe name f sched _ Hfn Hfl (fleet_safe n name f e)) as Hs.
  eapply (safe_marker _ _ _ Hs); eauto. by apply marking_phase.
Qed.

(** X17. The decision is taken under the lock: a process that has acquired
    the lock and has not yet skipped or written the marker holds the lock
    key with its own token, and no other process is at that point. *)
Theorem one_decider n name f e sched i j p q :
  (forall s, f s !! name = s !! name) ->
  (forall s, f s !! mutexName name = s !! mutexName name) ->
  procs (run_fleet sched (fleet n name f e)) !! i = Some p ->
  procs (run_fleet sched (fleet n name f e)) !! j = Some q ->
  phase p = Locked \/ phase p = Chosen ->
  phase q = Locked \/ phase q = Chosen ->
  i = j /\
  exists t, token (pheap p) = Some t /\
    store (shared (run_fleet sched (fleet n name f e))) !! mutexName name =
      Some (VToken t).
Proof.
  intros Hfn Hfl Hp Hq Hpp Hpq.
  pose proof (run_fleet_safe name f sched _ Hfn Hfl (fleet_safe n name f e)) as Hs.
  destruct (safe_holder _ _ _ Hs i p Hp Hpp) as (t & Ht & Hst).
  destruct (safe_holder _ _ _ Hs j q Hq Hpq) as (t' & Ht' & Hst').
  split; [|by eauto].
  eapply (safe_distinct _ _ _ Hs); eauto. congruence.
Qed.

Lemma markers_never_overlap_witness :
  procs (run_fleet head_start (fleet 2 report id (idle []))) !! 0 = Some (racer head_start 0) /\
  marking (ptrace (racer head_start 0)) = true /\
  0 = 0.
Proof.
  assert (Hp : procs (run_fleet head_start (fleet 2 report id (idle []))) !! 0 = Some (racer head_start 0)) by (vm_compute; reflexivity).
  assert (Hm : marking (ptrace (racer head_start 0)) = true) by (vm_compute; reflexivity).
  split; [exact Hp|]. split; [exact Hm|].
  exact (markers_never_overlap 2 report id (idle []) head_start
           0 0 (racer head_start 0) (racer head_start 0) (fun _ => eq_refl) (fun _ => eq_refl) Hp Hp Hm Hm).
Defined.

Lemma body_starts_alone_witness :
  procs (run_fleet head_start (fleet 2 report id (idle []))) !! 0 = Some (racer head_start 0) /\
  (exists g k, pcode (racer head_start 0) = Call g k) /\
  marking (ptrace (racer head_start 0)) = true /\
  0 = 0.
Proof.
  assert (Hp : procs (run_fleet head_start (fleet 2 report id (idle []))) !! 0 = Some (racer head_start 0)) by (vm_compute; reflexivity).
  assert (Hc : exists g k, pcode (racer head_start 0) = Call g k)
    by (vm_compute; eexists _, _; reflexivity).
  assert (Hm : marking (ptrace (racer head_start 0)) = true) by (vm_compute; reflexivity).
  split; [exact Hp|]. split; [exact Hc|]. split; [exact Hm|].
  exact (body_starts_alone 2 report id (idle []) head_start
           0 0 (racer head_start 0) (racer head_start 0) (fun _ => eq_refl) (fun _ => eq_refl) Hp Hp Hc Hm).
Defined.

Lemma marker_in_store_while_marking_witness :
  procs (run_fleet head_start (fleet 2 report id (idle []))) !! 0 = Some (racer head_start 0) /\
  marking (ptrace (racer head_start 0)) = true /\
  is_Some (store (shared (run_fleet head_start (fleet 2 report id (idle [])))) !! report).
Proof.
  assert (Hp : procs (run_fleet head_start (fleet 2 report id (idle []))) !! 0 = Some (racer head_start 0)) by (vm_compute; reflexivity).
  assert (Hm : marking (ptrace (racer head_start 0)) = true) by (vm_compute; reflexivity).
  split; [exact Hp|]. split; [exact Hm|].
  exact (marker_in_store_while_marking 2 report id (idle [])
           head_start 0 (racer head_start 0)
           (fun _ => eq_refl) (fun _ => eq_refl) Hp Hm).
Defined.

Lemma one_decider_witness :
  procs (run_fleet first_call (fleet 2 report id (idle []))) !! 0 = Some (racer first_call 0) /\
  phase (racer first_call 0) = Locked /\
  exists t, token (pheap (racer first_call 0)) = Some t /\
    store (shared (run_fleet first_call (fleet 2 report id (idle [])))) !! mutexName report = Some (VToken t).
Proof.
  assert (Hp : procs (run_fleet first_call (fleet 2 report id (idle []))) !! 0 = Some (racer first_call 0)) by (vm_compute; reflexivity).
  assert (Hl : phase (racer first_call 0) = Locked) by (vm_compute; reflexivity).
  split; [exact Hp|]. split; [exact Hl|].
  exact (proj2 (one_decider 2 report id (idle []) first_call 0 0 (racer first_call 0) (racer first_call 0)
                  (fun _ => eq_refl) (fun _ => eq_refl) Hp Hp
                  (or_introl Hl) (or_introl Hl))).
Defined.
